(** * The super tiny compiler (TypeScript port): a shallow embedding

    The development follows [the-super-tiny-compiler.ts] function by
    function: [tokenizer], [parser] (with its inner [walk]), [traverser]
    (with [traverseArray] and [traverseNode]), [transformer],
    [codeGenerator] and [compiler].

    Conventions of the embedding.
    - A JavaScript string is the list of its UTF-16 code units.
    - [input[i]] is [input !! i]: [None] stands for [undefined].
    - A [while] loop is a function recursive on a [fuel] counter; the
      outcome [OutOfFuel] means that the loop was still running when the
      counter reached zero, so "for every [fuel] the outcome is
      [OutOfFuel]" says that the loop never ends.
    - A thrown exception is the outcome [Throw].
    - A string has a longest length, [max_string_length]: the engine
      throws a [RangeError] instead of building a longer one. *)

From Stdlib Require Import Ascii String.
From stdpp Require Import base option list gmap strings.

Set Default Proof Using "Type".

(** ** Strings *)

(** A string of the program: its UTF-16 code units. *)
Abbreviation jsstring := (list N).

(** The code units of an ASCII literal. *)
Definition codes (s : string) : jsstring :=
  N_of_ascii <$> list_ascii_of_string s.

Definition quote : N := 34.

(** ** Outcomes *)

Inductive exn :=
  | TypeError (message : string)
    (** [throw new TypeError(message)] *)
  | TypeError_undefined (property : string)
    (** the [TypeError] of the engine when [property] is read from
        [undefined] *)
  | RangeError_length
    (** the [RangeError] of the engine (Invalid string length) when a
        string would become longer than the engine allows *).

Inductive outcome (A : Type) :=
  | Ok (a : A)
  | Throw (e : exn)
  | OutOfFuel.
Arguments Ok {A} a.
Arguments Throw {A} e.
Arguments OutOfFuel {A}.

#[global] Instance outcome_ret : MRet outcome := @Ok.
#[global] Instance outcome_bind : MBind outcome := λ A B f m,
  match m with
  | Ok a => f a
  | Throw e => Throw e
  | OutOfFuel => OutOfFuel
  end.
#[global] Instance outcome_fmap : FMap outcome := λ A B f m,
  match m with
  | Ok a => Ok (f a)
  | Throw e => Throw e
  | OutOfFuel => OutOfFuel
  end.

(** ** Tokens *)

Inductive tokenType := tk_name | tk_paren | tk_number | tk_string.

Record token := Token { type : tokenType; value : jsstring }.

#[global] Instance tokenType_eq_dec : EqDecision tokenType.
Proof. solve_decision. Defined.
#[global] Instance token_eq_dec : EqDecision token.
Proof. solve_decision. Defined.

(** ** The tokenizer *)

Module Tokenizer.

(** The four regular expressions, each tested against one code unit. *)
Definition is_digit (c : N) : bool := (48 <=? c)%N && (c <=? 57)%N.

(** [/[a-z]/i]: without the [u] flag a code unit above 127 is never
    folded onto an ASCII letter. *)
Definition is_letter (c : N) : bool :=
  ((65 <=? c)%N && (c <=? 90)%N) || ((97 <=? c)%N && (c <=? 122)%N).

Definition is_paren (c : N) : bool := (c =? 40)%N || (c =? 41)%N.

(** [\s]: the white space and line terminator code units of ECMAScript. *)
Definition is_whitespace (c : N) : bool :=
  ((9 <=? c)%N && (c <=? 13)%N) || (c =? 32)%N || (c =? 160)%N
  || (c =? 5760)%N || ((8192 <=? c)%N && (c <=? 8202)%N)
  || (c =? 8232)%N || (c =? 8233)%N || (c =? 8239)%N || (c =? 8287)%N
  || (c =? 12288)%N || (c =? 65279)%N.

(** [reg.test(char)] converts its argument to a string first: for
    [undefined] the tested string is ["undefined"], which has letters and
    neither digits, parentheses nor white space. *)
Definition numberReg (char : option N) : bool := from_option is_digit false char.
Definition letterReg (char : option N) : bool := from_option is_letter true char.
Definition parenReg (char : option N) : bool := from_option is_paren false char.
Definition whiteSpaceReg (char : option N) : bool :=
  from_option is_whitespace false char.

(** The longest string that the engine builds: [2^29 - 24] code units in
    V8 on a 64-bit machine.  The language allows [2^53 - 1] at most; the
    properties below do not depend on the value. *)
Definition max_string_length : N := 536870888.

(** A character of the input as a string; [undefined] is converted to the
    text ["undefined"]. *)
Definition text_of (char : option N) : jsstring :=
  from_option (λ c, [c]) (codes "undefined") char.

(** [s += char].  The engine throws a [RangeError] when the result would
    be longer than [max_string_length].  Only the text of [undefined] can
    make it so: the characters that a loop appends to [s] are read at
    successive indices of [input], so as long as they are characters [s]
    is a part of [input], and [input] is a string itself. *)
Definition append (s : jsstring) (char : option N) : outcome jsstring :=
  match char with
  | Some c => Ok (s ++ [c])
  | None =>
      if (max_string_length <? N.of_nat (length (s ++ text_of None)))%N
      then Throw RangeError_length
      else Ok (s ++ text_of None)
  end.

(** [while (numberReg.test(char)) { numberValue += input[current];
    char = input[++current] }]; the result is the final [current] and
    [numberValue]. *)
Fixpoint number_loop (fuel : nat) (input : jsstring) (current : nat)
    (char : option N) (numberValue : jsstring) : outcome (nat * jsstring) :=
  match fuel with
  | 0 => OutOfFuel
  | S fuel =>
      if numberReg char then
        numberValue ← append numberValue (input !! current);
        number_loop fuel input (S current) (input !! S current) numberValue
      else Ok (current, numberValue)
  end.

(** [while (letterReg.test(char)) { letterValue += input[current];
    char = input[++current] }]. *)
Fixpoint letter_loop (fuel : nat) (input : jsstring) (current : nat)
    (char : option N) (letterValue : jsstring) : outcome (nat * jsstring) :=
  match fuel with
  | 0 => OutOfFuel
  | S fuel =>
      if letterReg char then
        letterValue ← append letterValue (input !! current);
        letter_loop fuel input (S current) (input !! S current) letterValue
      else Ok (current, letterValue)
  end.

(** The string scan: [while (char !== QUOTE) { stringValue += char;
    char = input[++current] }], where QUOTE is the double quote. *)
Fixpoint string_loop (fuel : nat) (input : jsstring) (current : nat)
    (char : option N) (stringValue : jsstring) : outcome (nat * jsstring) :=
  match fuel with
  | 0 => OutOfFuel
  | S fuel =>
      if decide (char = Some quote) then Ok (current, stringValue)
      else
        stringValue ← append stringValue char;
        string_loop fuel input (S current) (input !! S current) stringValue
  end.

(** The main loop [while (current < input.length) { ... }].  [console]
    collects the characters reported by [console.log] in the default
    case. *)
Fixpoint main_loop (fuel : nat) (input : jsstring) (current : nat)
    (tokens : list token) (console : list (option N))
    : outcome (list token * list (option N)) :=
  match fuel with
  | 0 => OutOfFuel
  | S fuel =>
      if decide (current < length input) then
        let char := input !! current in
        if numberReg char then
          '(current1, numberValue) ← number_loop fuel input current char [];
          main_loop fuel input current1
            (tokens ++ [Token tk_number numberValue]) console
        else if letterReg char then
          '(current1, letterValue) ← letter_loop fuel input current char [];
          main_loop fuel input current1
            (tokens ++ [Token tk_name letterValue]) console
        else if parenReg char then
          main_loop fuel input (S current)
            (tokens ++ [Token tk_paren (text_of (input !! current))]) console
        else if whiteSpaceReg char then
          main_loop fuel input (S current) tokens console
        else if decide (char = Some quote) then
          (* char = input[++current], the scan, then current++ *)
          '(current1, stringValue) ←
            string_loop fuel input (S current) (input !! S current) [];
          main_loop fuel input (S current1)
            (tokens ++ [Token tk_string stringValue]) console
        else
          (* default: the character is logged, [current] is left as it is *)
          main_loop fuel input current tokens (console ++ [char])
      else Ok (tokens, console)
  end.

Definition run (fuel : nat) (input : jsstring)
    : outcome (list token * list (option N)) :=
  main_loop fuel input 0 [] [].

End Tokenizer.

(** [tokenizer(input)], run for at most [fuel] loop iterations in a row. *)
Definition tokenizer (fuel : nat) (input : jsstring) : outcome (list token) :=
  fst <$> Tokenizer.run fuel input.

(** ** The source tree *)

Inductive nodeType :=
  T_StringLiteral | T_NumberLiteral | T_CallExpression | T_Program.

#[global] Instance nodeType_eq_dec : EqDecision nodeType.
Proof. solve_decision. Defined.

(** The interface [node] is a union tagged by its field [type]; every
    node built by [parser] has the fields of its tag. *)
#[warnings="-register-all"]
Inductive node :=
  | NumberLiteral (value : jsstring)
  | StringLiteral (value : jsstring)
  | CallExpression (name : jsstring) (params : list node)
  | Program (body : list node).

Definition node_type (n : node) : nodeType :=
  match n with
  | NumberLiteral _ => T_NumberLiteral
  | StringLiteral _ => T_StringLiteral
  | CallExpression _ _ => T_CallExpression
  | Program _ => T_Program
  end.

(** ** The parser *)

Module Parser.

(** The two variables that [walk] shares through its closure: the
    pointer [current] and the variable [token], which is [undefined]
    once it has been read from beyond the end of [tokens]. *)
Record state := State { current : nat; tok : option token }.

Definition type_name (t : tokenType) : string :=
  match t with
  | tk_name => "name"
  | tk_paren => "paren"
  | tk_number => "number"
  | tk_string => "string"
  end.

(** The condition of the loop that collects the parameters:
    [token.type !== 'paren' || (token.type === 'paren' && token.value !== ')')]. *)
Definition not_closing (t : token) : bool :=
  negb (bool_decide (type t = tk_paren))
  || (bool_decide (type t = tk_paren)
      && negb (bool_decide (value t = codes ")"))).

(** [walk()], and the [while] loop of its [paren] case.  Reading
    [token.type] or [token.value] while [token] is [undefined] throws. *)
Fixpoint walk (fuel : nat) (tokens : list token) (st : state)
    : outcome (node * state) :=
  match fuel with
  | 0 => OutOfFuel
  | S fuel =>
      match tok st with
      | None => Throw (TypeError_undefined "type")
      | Some t =>
          match type t with
          | tk_number =>
              Ok (NumberLiteral (value t), State (S (current st)) (tok st))
          | tk_string =>
              Ok (StringLiteral (value t), State (S (current st)) (tok st))
          | tk_paren =>
              if decide (value t = codes "(") then
                (* token = tokens[++current] *)
                let current1 := S (current st) in
                match tokens !! current1 with
                | None => Throw (TypeError_undefined "value")
                | Some t1 =>
                    (* curNode = { type: 'CallExpression', name: token.value,
                       params: [] }; token = tokens[++current] *)
                    let current2 := S current1 in
                    params_loop fuel tokens (value t1) []
                      (State current2 (tokens !! current2))
                end
              else Throw (TypeError (type_name (type t)))
          | tk_name => Throw (TypeError (type_name (type t)))
          end
      end
  end
with params_loop (fuel : nat) (tokens : list token) (name : jsstring)
    (params : list node) (st : state) : outcome (node * state) :=
  match fuel with
  | 0 => OutOfFuel
  | S fuel =>
      match tok st with
      | None => Throw (TypeError_undefined "type")
      | Some t =>
          if not_closing t then
            '(param, st1) ← walk fuel tokens st;
            (* token = tokens[current] *)
            params_loop fuel tokens name (params ++ [param])
              (State (current st1) (tokens !! current st1))
          else
            (* current++ *)
            Ok (CallExpression name params, State (S (current st)) (tok st))
      end
  end.

(** [while (current < tokens.length) { ast.body.push(walk()) }]: the
    variable [token] is not read again from [tokens] between two calls. *)
Fixpoint body_loop (fuel : nat) (tokens : list token) (body : list node)
    (st : state) : outcome (list node) :=
  match fuel with
  | 0 => OutOfFuel
  | S fuel =>
      if decide (current st < length tokens) then
        '(n, st1) ← walk fuel tokens st;
        body_loop fuel tokens (body ++ [n]) st1
      else Ok body
  end.

Definition run (fuel : nat) (tokens : list token) : outcome node :=
  Program <$> body_loop fuel tokens [] (State 0 (tokens !! 0)).

End Parser.

(** [parser(tokens)].  One unit of fuel for each token and one more is
    enough for every loop and call of the parser ([parser_fuel_enough]). *)
Definition parser (tokens : list token) : outcome node :=
  Parser.run (S (length tokens)) tokens.

(** ** The traverser *)

(** A position in a tree: the indices of the children on the way down. *)
Abbreviation path := (list nat).

(** A reference to a node of the tree that is traversed: the object
    found at [pos] from the root.  Two references denote the same object
    exactly when their positions are equal; this identifies the objects of
    a tree in which no object occurs twice, as in the trees built by
    [parser]. *)
Record ref := Ref { pos : path; deref : node }.

Module Traverser.
Section traverser.
(** The state that the callbacks of the visitor act on. *)
Context {St : Type}.

(** [(node: node, parent: node | null) => void] *)
Definition callback := ref → option ref → St → outcome St.

Record methods :=
  Methods { enter : option callback; exit : option callback }.

(** [{ [K in nodeType]?: { enter?: ..., exit?: ... } }] *)
Definition visitor := nodeType → option methods.

(** [if (methods?.enter) { methods.enter(node, parent) }], and the same
    for [exit]. *)
Definition call (f : option callback) (node : ref) (parent : option ref)
    (s : St) : outcome St :=
  match f with
  | Some f => f node parent s
  | None => Ok s
  end.

(** [nodeArray.forEach(f)]: the elements in ascending order of index. *)
Section forEach.
Context {A : Type} (f : nat → A → St → outcome St).
Fixpoint forEach_from (i : nat) (nodeArray : list A) (s : St) : outcome St :=
  match nodeArray with
  | [] => Ok s
  | x :: rest => s1 ← f i x s; forEach_from (S i) rest s1
  end.
End forEach.

Context (v : visitor).

(** [traverseNode(node, parent)], for the node found at position [p].  The
    [default] case of its [switch] cannot be reached: [node.type] is one
    of the four tags. *)
Fixpoint traverseNode (n : node) (p : path) (parent : option ref) (s : St)
    : outcome St :=
  let methods := v (node_type n) in
  s1 ← call (methods ≫= enter) (Ref p n) parent s;
  s2 ← match n with
       | NumberLiteral _ | StringLiteral _ => Ok s1
       | Program body =>
           forEach_from
             (λ i child, traverseNode child (p ++ [i]) (Some (Ref p n)))
             0 body s1
       | CallExpression _ params =>
           forEach_from
             (λ i child, traverseNode child (p ++ [i]) (Some (Ref p n)))
             0 params s1
       end;
  call (methods ≫= exit) (Ref p n) parent s2.

(** [traverseArray(nodeArray, parent)] *)
Definition traverseArray (nodeArray : list node) (parent : ref) (s : St)
    : outcome St :=
  forEach_from
    (λ i child, traverseNode child (pos parent ++ [i]) (Some parent))
    0 nodeArray s.

(** [traverser(ast, visitor)]: [traverseNode(ast, null)]. *)
Definition run (ast : node) (s : St) : outcome St :=
  traverseNode ast [] None s.
End traverser.
Arguments callback : clear implicits.
Arguments methods : clear implicits.
Arguments visitor : clear implicits.
End Traverser.

Definition traverser {St : Type} (ast : node) (v : Traverser.visitor St)
    (s : St) : outcome St :=
  Traverser.run v ast s.

(** ** The transformer *)

(** [{ type: 'Identifier', name: node.name }] *)
Record identifier := Identifier { id_name : option jsstring }.

Definition node_name (n : node) : option jsstring :=
  match n with
  | CallExpression name _ => Some name
  | _ => None
  end.

Definition node_value (n : node) : option jsstring :=
  match n with
  | NumberLiteral value | StringLiteral value => Some value
  | _ => None
  end.

(** The tree that [transformer] returns, with the origin of each object:
    created by [transformer], or an object of the source tree. *)
#[warnings="-register-all"]
Inductive tnode :=
  | New_Program (body : list tnode)
  | New_ExpressionStatement (expression : tnode)
  | New_CallExpression (callee : identifier) (arguments : list tnode)
  | Source_node (r : ref).

Module Transformer.

(** The arrays that are created during a transformation: [newAst.body],
    and the array [expression.arguments] created when the call at a
    position of the source tree is entered. *)
Inductive array :=
  | newAst_body
  | arguments_at (p : path).

#[global] Instance array_eq_dec : EqDecision array.
Proof. solve_decision. Defined.
#[global] Instance array_countable : Countable array :=
  inj_countable'
    (λ a, match a with newAst_body => None | arguments_at p => Some p end)
    (λ o, match o with None => newAst_body | Some p => arguments_at p end)
    (λ a, match a with newAst_body => eq_refl | arguments_at _ => eq_refl end).

(** What is pushed into an array: a reference to an object.  A new
    [CallExpression] object refers to its array [arguments], which is
    filled after the object has been pushed. *)
Inductive object :=
  | the_node (r : ref)
  | new_CallExpression (callee : identifier) (arguments : array)
  | new_ExpressionStatement (expression : object).

(** The store: the property [_context] of the source nodes that have one,
    and the contents of the arrays. *)
Record heap := Heap {
  context : gmap path array;
  arrays : gmap array (list object)
}.

(** [parent['_context'].push(x)] *)
Definition push_context (parent : ref) (x : object) (h : heap) : outcome heap :=
  match context h !! pos parent with
  | None => Throw (TypeError_undefined "push")
  | Some a => Ok (Heap (context h) (alter (λ l, l ++ [x]) a (arrays h)))
  end.

(** The [enter] of [NumberLiteral] and of [StringLiteral]:
    [if (parent) parent['_context'].push(node)]. *)
Definition enter_literal : Traverser.callback heap := λ node parent h,
  match parent with
  | Some parent => push_context parent (the_node node) h
  | None => Ok h
  end.

(** The [enter] of [CallExpression]. *)
Definition enter_call : Traverser.callback heap := λ node parent h,
  let arguments := arguments_at (pos node) in
  let expression :=
    new_CallExpression (Identifier (node_name (deref node))) arguments in
  (* arguments: [] and node['_context'] = expression.arguments *)
  let h1 := Heap (<[pos node := arguments]> (context h))
                 (<[arguments := []]> (arrays h)) in
  match parent with
  | Some parent =>
      let expression :=
        if decide (node_type (deref parent) ≠ T_CallExpression)
        then new_ExpressionStatement expression
        else expression in
      push_context parent expression h1
  | None => Ok h1
  end.

Definition visitor : Traverser.visitor heap := λ t,
  match t with
  | T_NumberLiteral => Some (Traverser.Methods (Some enter_literal) None)
  | T_StringLiteral => Some (Traverser.Methods (Some enter_literal) None)
  | T_CallExpression => Some (Traverser.Methods (Some enter_call) None)
  | T_Program => None
  end.

Definition sequence {A : Type} (l : list (outcome A)) : outcome (list A) :=
  foldr (λ m acc, x ← m; xs ← acc; Ok (x :: xs)) (Ok []) l.

(** The tree that is reached from an object in the final store.  [fuel]
    bounds the depth of the descent; the height of the source tree is
    enough ([TransformerFacts.run_valid]). *)
Fixpoint resolve (fuel : nat) (arr : gmap array (list object)) (x : object)
    : outcome tnode :=
  match fuel with
  | 0 => OutOfFuel
  | S fuel =>
      match x with
      | the_node r => Ok (Source_node r)
      | new_ExpressionStatement e =>
          New_ExpressionStatement <$> resolve fuel arr e
      | new_CallExpression callee a =>
          New_CallExpression callee <$>
            sequence (resolve fuel arr <$> default [] (arr !! a))
      end
  end.

Fixpoint height (n : node) : nat :=
  match n with
  | NumberLiteral _ | StringLiteral _ => 1
  | CallExpression _ params => S (foldr (λ c m, height c `max` m) 0 params)
  | Program body => S (foldr (λ c m, height c `max` m) 0 body)
  end.

(** [newAst = { type: 'Program', body: [] }; ast['_context'] = newAst.body] *)
Definition initial : heap :=
  Heap {[ [] := newAst_body ]} {[ newAst_body := [] ]}.

(** The whole of [transformer]: the tree reached from [newAst] after the
    traversal, and the final store.  The objects of the source tree are
    taken to have no property [_context] beforehand. *)
Definition run (ast : node) : outcome (tnode * heap) :=
  h ← traverser ast visitor initial;
  body ← sequence (resolve (height ast) (arrays h)
                     <$> default [] (arrays h !! newAst_body));
  Ok (New_Program body, h).

End Transformer.

Definition transformer (ast : node) : outcome tnode :=
  fst <$> Transformer.run ast.

(** ** The code generator *)

Inductive parsedNodeType :=
  | T_node (t : nodeType)
  | T_Identifier
  | T_ExpressionStatement.

#[global] Instance parsedNodeType_eq_dec : EqDecision parsedNodeType.
Proof. solve_decision. Defined.

(** The interface [parsedNode]: every field but [type] is optional. *)
#[warnings="-register-all"]
Inductive parsedNode := ParsedNode {
  p_type : parsedNodeType;
  p_value : option jsstring;
  p_name : option jsstring;
  p_expression : option parsedNode;
  p_arguments : option (list parsedNode);
  p_body : option (list parsedNode);
  p_callee : option identifier
}.

(** What [codeGenerator] returns: [undefined], a string, or (for a
    [Program]) an array of what it returns for the entries of [body]. *)
#[warnings="-register-all"]
Inductive jsval :=
  | Undefined
  | Str (s : jsstring)
  | Arr (elements : list jsval).

Module Generator.

Fixpoint join_strings (separator : jsstring) (l : list jsstring) : jsstring :=
  match l with
  | [] => []
  | [x] => x
  | x :: rest => x ++ separator ++ join_strings separator rest
  end.

(** The conversion to a string applied by [+] and by [join]:
    an array is converted by [join(',')], and [join] converts an element
    that is [undefined] to the empty string. *)
Fixpoint ToString (x : jsval) : jsstring :=
  match x with
  | Undefined => codes "undefined"
  | Str s => s
  | Arr elements =>
      join_strings (codes ",")
        ((λ e, match e with Undefined => [] | _ => ToString e end)
           <$> elements)
  end.

(** [array.join(separator)] *)
Definition join (separator : jsstring) (elements : list jsval) : jsstring :=
  join_strings separator
    ((λ e, match e with Undefined => [] | _ => ToString e end) <$> elements).

Definition of_option (o : option jsstring) : jsval :=
  match o with
  | Some s => Str s
  | None => Undefined
  end.

End Generator.

(** [codeGenerator(node)].  A case of the [switch] whose [if] fails falls
    through to the next case; the [default] case cannot be reached, since
    [node.type] has one of the six tags. *)
Fixpoint codeGenerator (node : parsedNode) : jsval :=
  let 'ParsedNode type value name expression arguments body callee := node in
  let case_Identifier := Generator.of_option name in
  let case_CallExpression :=
    match callee with
    | Some callee =>
        (* codeGenerator(node.callee) is the [name] of the callee *)
        Str (Generator.ToString (Generator.of_option (id_name callee))
             ++ codes "("
             ++ Generator.ToString
                  match arguments with
                  | Some arguments =>
                      Str (Generator.join (codes ",")
                             (codeGenerator <$> arguments))
                  | None => Undefined
                  end
             ++ codes ")")
    | None => case_Identifier
    end in
  match type with
  | T_node T_Program =>
      match body with
      | Some body => Arr (codeGenerator <$> body)
      | None => Undefined
      end
  | T_ExpressionStatement =>
      match expression with
      | Some expression =>
          Str (Generator.ToString (codeGenerator expression) ++ codes ";")
      | None => case_CallExpression
      end
  | T_node T_CallExpression => case_CallExpression
  | T_Identifier => case_Identifier
  | T_node T_NumberLiteral => Generator.of_option value
  | T_node T_StringLiteral =>
      Str ([quote] ++ Generator.ToString (Generator.of_option value) ++ [quote])
  end.

(** ** The compiler *)

(** An object of the source tree read through the interface [parsedNode]. *)
Fixpoint parsedNode_of_node (n : node) : parsedNode :=
  ParsedNode (T_node (node_type n)) (node_value n) (node_name n) None None
    match n with
    | Program body => Some (parsedNode_of_node <$> body)
    | _ => None
    end
    None.

(** The tree returned by [transformer] read through [parsedNode]. *)
Fixpoint parsedNode_of (t : tnode) : parsedNode :=
  match t with
  | New_Program body =>
      ParsedNode (T_node T_Program) None None None None
        (Some (parsedNode_of <$> body)) None
  | New_ExpressionStatement expression =>
      ParsedNode T_ExpressionStatement None None
        (Some (parsedNode_of expression)) None None None
  | New_CallExpression callee arguments =>
      ParsedNode (T_node T_CallExpression) None None None
        (Some (parsedNode_of <$> arguments)) None (Some callee)
  | Source_node r => parsedNode_of_node (deref r)
  end.

(** [compiler(input)]; [fuel] bounds the loops of [tokenizer].  The call
    of [console.log] has no part in the result. *)
Definition compiler (fuel : nat) (input : jsstring) : outcome jsval :=
  tokens ← tokenizer fuel input;
  ast ← parser tokens;
  newAst ← transformer ast;
  Ok (codeGenerator (parsedNode_of newAst)).

(** * Definitions used to state the properties *)

(** The number of double quotes of a string. *)
Definition quotes (input : jsstring) : nat :=
  length (filter (λ c, c = quote) input).

(** The visits of a traversal, in the words of the specification:
    depth-first, [enter] of a node, then its children from left to right,
    then its [exit]; the children are visited with the node as parent. *)
Inductive visit :=
  | Enter (node : ref) (parent : option ref)
  | Exit (node : ref) (parent : option ref).

Section mapi.
Context {A B : Type} (f : nat → A → B).
Fixpoint mapi_from (i : nat) (l : list A) : list B :=
  match l with
  | [] => []
  | x :: rest => f i x :: mapi_from (S i) rest
  end.
End mapi.

Definition children (n : node) : list node :=
  match n with
  | NumberLiteral _ | StringLiteral _ => []
  | CallExpression _ params => params
  | Program body => body
  end.

Fixpoint visits (n : node) (p : path) (parent : option ref) : list visit :=
  [Enter (Ref p n) parent]
  ++ match n with
     | NumberLiteral _ | StringLiteral _ => []
     | CallExpression _ params =>
         concat (mapi_from (λ i c, visits c (p ++ [i]) (Some (Ref p n)))
                   0 params)
     | Program body =>
         concat (mapi_from (λ i c, visits c (p ++ [i]) (Some (Ref p n)))
                   0 body)
     end
  ++ [Exit (Ref p n) parent].

(** The callback that a visitor has for a visit, if it has one, applied
    to the node and the parent of the visit. *)
Definition callback_of {St : Type} (v : Traverser.visitor St) (x : visit)
    : option (St → outcome St) :=
  match x with
  | Enter node parent =>
      methods ← v (node_type (deref node));
      f ← Traverser.enter methods;
      Some (f node parent)
  | Exit node parent =>
      methods ← v (node_type (deref node));
      f ← Traverser.exit methods;
      Some (f node parent)
  end.

(** The callbacks of a visitor called for a list of visits, in order: a
    visit for which the visitor has no callback is passed over, and a
    callback that throws ends the list. *)
Fixpoint perform {St : Type} (v : Traverser.visitor St) (l : list visit)
    (s : St) : outcome St :=
  match l with
  | [] => Ok s
  | x :: rest =>
      match callback_of v x with
      | Some f =>
          match f s with
          | Ok s1 => perform v rest s1
          | Throw e => Throw e
          | OutOfFuel => OutOfFuel
          end
      | None => perform v rest s
      end
  end.

(** A well-formed node of the target tree has the fields of its kind,
    and a [Program] occurs at the root only. *)
Fixpoint well_formed_expression (n : parsedNode) : bool :=
  let 'ParsedNode type value name expression arguments body callee := n in
  match type with
  | T_node T_Program => false
  | T_ExpressionStatement =>
      match expression with
      | Some expression => well_formed_expression expression
      | None => false
      end
  | T_node T_CallExpression =>
      match callee, arguments with
      | Some callee, Some arguments =>
          bool_decide (is_Some (id_name callee))
          && forallb well_formed_expression arguments
      | _, _ => false
      end
  | T_Identifier => bool_decide (is_Some name)
  | T_node T_NumberLiteral | T_node T_StringLiteral =>
      bool_decide (is_Some value)
  end.

Definition well_formed (n : parsedNode) : bool :=
  match p_type n with
  | T_node T_Program =>
      match p_body n with
      | Some body => forallb well_formed_expression body
      | None => false
      end
  | _ => well_formed_expression n
  end.

(** Texts joined by commas, in the words of the specification: the first
    text, and every further text after a comma. *)
Definition comma_joined (texts : list jsstring) : jsstring :=
  match texts with
  | [] => []
  | text :: texts => text ++ concat ((λ t, codes "," ++ t) <$> texts)
  end.

(** What [codeGenerator] is specified to return for a node, by the kind of
    the node, in terms of what it returns for the parts of the node. *)
Definition renders (n : parsedNode) : Prop :=
  match p_type n with
  | T_node T_Program =>
      ∃ body texts,
        p_body n = Some body
        ∧ Forall2 (λ entry text, codeGenerator entry = Str text) body texts
        ∧ codeGenerator n = Arr (Str <$> texts)
  | T_ExpressionStatement =>
      ∃ expression text,
        p_expression n = Some expression
        ∧ codeGenerator expression = Str text
        ∧ codeGenerator n = Str (text ++ codes ";")
  | T_node T_CallExpression =>
      ∃ callee name arguments texts,
        p_callee n = Some callee ∧ id_name callee = Some name
        ∧ p_arguments n = Some arguments
        ∧ Forall2 (λ argument text, codeGenerator argument = Str text)
            arguments texts
        ∧ codeGenerator n
          = Str (name ++ codes "(" ++ comma_joined texts ++ codes ")")
  | T_Identifier =>
      ∃ name, p_name n = Some name ∧ codeGenerator n = Str name
  | T_node T_NumberLiteral =>
      ∃ value, p_value n = Some value ∧ codeGenerator n = Str value
  | T_node T_StringLiteral =>
      ∃ value,
        p_value n = Some value
        ∧ codeGenerator n = Str ([quote] ++ value ++ [quote])
  end.

(** The nodes of [foo("bar",12)] and of [foo("bar",12);], with the double
    quotes of the string left to the generator. *)
Definition call_of_example : parsedNode :=
  ParsedNode (T_node T_CallExpression) None None None
    (Some [ParsedNode (T_node T_StringLiteral) (Some (codes "bar"))
             None None None None None;
           ParsedNode (T_node T_NumberLiteral) (Some (codes "12"))
             None None None None None])
    None (Some (Identifier (Some (codes "foo")))).

Definition statement_example : parsedNode :=
  ParsedNode T_ExpressionStatement None None (Some call_of_example)
    None None None.

(** The node found at a position below a node. *)
Fixpoint node_at (n : node) (s : path) : option node :=
  match s with
  | [] => Some n
  | i :: s' => children n !! i ≫= λ c, node_at c s'
  end.

(** The trees that [parser] builds: a [Program] at the root, and literals
    and calls below it. *)
Fixpoint is_expression (n : node) : bool :=
  match n with
  | NumberLiteral _ | StringLiteral _ => true
  | CallExpression _ params => forallb is_expression params
  | Program _ => false
  end.

Definition valid (ast : node) : bool :=
  match ast with
  | Program body => forallb is_expression body
  | _ => false
  end.

(** A closed form of the tree that [transformer] returns for a valid tree
    ([TransformerFacts.transformer_valid]): the target of a source node at
    position [p] that is an argument of a call, the target of one that is
    an entry of the body of the program, and the target of the program. *)
Fixpoint expression_of (n : node) (p : path) : tnode :=
  match n with
  | CallExpression name params =>
      New_CallExpression (Identifier (Some name))
        (mapi_from (λ i c, expression_of c (p ++ [i])) 0 params)
  | _ => Source_node (Ref p n)
  end.

Definition statement_of (n : node) (p : path) : tnode :=
  match n with
  | CallExpression _ _ => New_ExpressionStatement (expression_of n p)
  | _ => expression_of n p
  end.

Definition transformed (ast : node) : tnode :=
  New_Program (mapi_from (λ i c, statement_of c [i]) 0 (children ast)).

(** The entries of the array of a node of the target tree: the body of a
    program, the arguments of a call, and the arguments of the call of a
    statement. *)
Definition entries (t : tnode) : list tnode :=
  match t with
  | New_Program body => body
  | New_CallExpression _ arguments => arguments
  | New_ExpressionStatement (New_CallExpression _ arguments) => arguments
  | _ => []
  end.

(** The entry of the target tree reached by the indices of a position of
    the source tree. *)
Fixpoint entry_at (t : tnode) (s : path) : option tnode :=
  match s with
  | [] => Some t
  | i :: s' => entries t !! i ≫= λ c, entry_at c s'
  end.

(** The number of [CallExpression] nodes of a source tree and of a target
    tree. *)
Fixpoint calls (n : node) : nat :=
  match n with
  | NumberLiteral _ | StringLiteral _ => 0
  | CallExpression _ params => S (foldr (λ c k, calls c + k) 0 params)
  | Program body => foldr (λ c k, calls c + k) 0 body
  end.

Fixpoint target_calls (t : tnode) : nat :=
  match t with
  | New_Program body => foldr (λ c k, target_calls c + k) 0 body
  | New_ExpressionStatement expression => target_calls expression
  | New_CallExpression _ arguments =>
      S (foldr (λ c k, target_calls c + k) 0 arguments)
  | Source_node r =>
      if decide (node_type (deref r) = T_CallExpression) then 1 else 0
  end.

(** The objects of the source tree that occur in a target tree. *)
Fixpoint shared (t : tnode) : list ref :=
  match t with
  | New_Program body => concat (shared <$> body)
  | New_ExpressionStatement expression => shared expression
  | New_CallExpression _ arguments => concat (shared <$> arguments)
  | Source_node r => [r]
  end.

(** The literal nodes of a source tree, from left to right. *)
Fixpoint literals (n : node) (p : path) : list ref :=
  match n with
  | NumberLiteral _ | StringLiteral _ => [Ref p n]
  | CallExpression _ params =>
      concat (mapi_from (λ i c, literals c (p ++ [i])) 0 params)
  | Program body =>
      concat (mapi_from (λ i c, literals c (p ++ [i])) 0 body)
  end.

(** The object that the visitor of [transformer] pushes for the source
    node [n] found at position [p] under the node [parent]. *)
Definition object_of (parent n : node) (p : path) : Transformer.object :=
  match n with
  | CallExpression name _ =>
      let expression :=
        Transformer.new_CallExpression (Identifier (Some name))
          (Transformer.arguments_at p) in
      if decide (node_type parent ≠ T_CallExpression)
      then Transformer.new_ExpressionStatement expression
      else expression
  | _ => Transformer.the_node (Ref p n)
  end.

Definition objects_of (parent : node) (p : path) (i : nat) (l : list node)
    : list Transformer.object :=
  mapi_from (λ i c, object_of parent c (p ++ [i])) i l.

(** The array of every call of the tree [n] at [p] holds the objects of
    the parameters of the call. *)
Definition filled (arr : gmap Transformer.array (list Transformer.object))
    (n : node) (p : path) : Prop :=
  ∀ s name params,
    node_at n s = Some (CallExpression name params) →
    arr !! Transformer.arguments_at (p ++ s)
    = Some (objects_of (CallExpression name params) (p ++ s) 0 params).

(** What the traversal of the node [n] at [p] under [parent] does to a
    store [h] in which [a] is the [_context] of [parent]: the object of
    [n] is pushed into [a], the arrays of the calls of [n] are created and
    filled, these calls get their [_context], and nothing else changes. *)
Definition visited (n : node) (p : path) (parent : ref)
    (a : Transformer.array) (h h' : Transformer.heap) : Prop :=
  Transformer.arrays h' !! a
  = (λ l, l ++ [object_of (deref parent) n p]) <$> Transformer.arrays h !! a
  ∧ (∀ x, x ≠ a → (∀ s, x ≠ Transformer.arguments_at (p ++ s)) →
          Transformer.arrays h' !! x = Transformer.arrays h !! x)
  ∧ filled (Transformer.arrays h') n p
  ∧ (∀ q, (∀ s, q ≠ p ++ s) →
          Transformer.context h' !! q = Transformer.context h !! q)
  ∧ (∀ s, Transformer.context h' !! (p ++ s)
          = match node_at n s with
            | Some (CallExpression _ _) =>
                Some (Transformer.arguments_at (p ++ s))
            | _ => Transformer.context h !! (p ++ s)
            end).

Definition visits_well (n : node) : Prop :=
  ∀ p parent a h,
    Transformer.context h !! pos parent = Some a →
    (∀ s, a ≠ Transformer.arguments_at (p ++ s)) →
    (∀ s, pos parent ≠ p ++ s) →
    ∃ h', Traverser.traverseNode Transformer.visitor n p (Some parent) h
          = Ok h'
          ∧ visited n p parent a h h'.

(** The visitor that records every call of its callbacks. *)
Definition recorder : Traverser.visitor (list visit) := λ _,
  Some (Traverser.Methods
          (Some (λ node parent log, Ok (log ++ [Enter node parent])))
          (Some (λ node parent log, Ok (log ++ [Exit node parent])))).

(** The tokens that [tokenizer] can return. *)
Definition token_ok (t : token) : bool :=
  match type t with
  | tk_number =>
      bool_decide (value t ≠ []) && forallb Tokenizer.is_digit (value t)
  | tk_name =>
      bool_decide (value t ≠ []) && forallb Tokenizer.is_letter (value t)
  | tk_paren =>
      bool_decide (value t = codes "(") || bool_decide (value t = codes ")")
  | tk_string => forallb (λ c, negb (bool_decide (c = quote))) (value t)
  end.

(** The source text of a token, and of a list of tokens with a space after
    each of them. *)
Definition token_text (t : token) : jsstring :=
  match type t with
  | tk_string => [quote] ++ value t ++ [quote]
  | _ => value t
  end.

Definition print_tokens (tokens : list token) : jsstring :=
  concat ((λ t, token_text t ++ codes " ") <$> tokens).

(** What a scan has read when it ends: a run of characters of the input,
    appended to the text collected before. *)
Definition scanned (input : jsstring) (current current' : nat)
    (v v' run : jsstring) : Prop :=
  v' = v ++ run ∧ current' = current + length run
  ∧ take (length run) (drop current input) = run.

(** The characters of the four classes that the main loop consumes. *)
Definition plain (c : N) : bool :=
  Tokenizer.is_digit c || Tokenizer.is_letter c || Tokenizer.is_paren c
  || Tokenizer.is_whitespace c.

(** The tokens of the source text of a tree. *)
Fixpoint tokens_of (n : node) : list token :=
  match n with
  | NumberLiteral value => [Token tk_number value]
  | StringLiteral value => [Token tk_string value]
  | CallExpression name params =>
      Token tk_paren (codes "(") :: Token tk_name name
      :: concat (tokens_of <$> params) ++ [Token tk_paren (codes ")")]
  | Program body => concat (tokens_of <$> body)
  end.

(** The literal node that [walk] returns for a number or string token. *)
Definition literal_of (t : token) : node :=
  match type t with
  | tk_string => StringLiteral (value t)
  | _ => NumberLiteral (value t)
  end.

(** The tree of [(add 2 (subtract 4 "x"))]. *)
Definition call_example : node :=
  CallExpression (codes "add")
    [NumberLiteral (codes "2");
     CallExpression (codes "subtract")
       [NumberLiteral (codes "4"); StringLiteral (codes "x")]].

(** The target text of an expression of the source tree, and of an entry
    of the body of the program. *)
Fixpoint expression_text (n : node) : jsstring :=
  match n with
  | NumberLiteral value => value
  | StringLiteral value => [quote] ++ value ++ [quote]
  | CallExpression name params =>
      name ++ codes "("
      ++ Generator.join_strings (codes ",") (expression_text <$> params)
      ++ codes ")"
  | Program _ => []
  end.

Definition statement_text (n : node) : jsstring :=
  match n with
  | CallExpression _ _ => expression_text n ++ codes ";"
  | _ => expression_text n
  end.

(** * Properties of the tokenizer *)

Module TokenizerFacts.
Import Tokenizer.

Lemma quotes_drop_skip (input : jsstring) (current : nat) :
  input !! current ≠ Some quote →
  quotes (drop (S current) input) = quotes (drop current input).
Proof.
  intros Hc. destruct (input !! current) as [c|] eqn:E.
  - rewrite (drop_S _ _ _ E). unfold quotes. rewrite filter_cons.
    destruct (decide (c = quote)) as [->|]; [done|reflexivity].
  - apply lookup_ge_None in E. rewrite !drop_ge by lia. reflexivity.
Qed.

Lemma quotes_drop_quote (input : jsstring) (current : nat) :
  input !! current = Some quote →
  quotes (drop current input) = S (quotes (drop (S current) input)).
Proof.
  intros E. rewrite (drop_S _ _ _ E). unfold quotes.
  rewrite filter_cons. destruct (decide (quote = quote)); done.
Qed.

Lemma digit_not_quote (char : option N) :
  numberReg char = true → char ≠ Some quote.
Proof. intros H ->. discriminate H. Qed.

Lemma letter_not_quote (char : option N) :
  letterReg char = true → char ≠ Some quote.
Proof. intros H ->. discriminate H. Qed.

Lemma paren_not_quote (char : option N) :
  parenReg char = true → char ≠ Some quote.
Proof. intros H ->. discriminate H. Qed.

Lemma whitespace_not_quote (char : option N) :
  whiteSpaceReg char = true → char ≠ Some quote.
Proof. intros H ->. discriminate H. Qed.

Lemma append_unfold (s : jsstring) (char : option N) :
  append s char
  = match char with
    | Some c => Ok (s ++ [c])
    | None =>
        if (max_string_length <? N.of_nat (length (s ++ text_of None)))%N
        then Throw RangeError_length
        else Ok (s ++ text_of None)
    end.
Proof. done. Qed.

(** [s += char] throws nothing but the [RangeError], and only when [char]
    is [undefined]. *)
Lemma append_cases (s : jsstring) (char : option N) :
  append s char = Ok (s ++ text_of char)
  ∨ (char = None ∧ append s char = Throw RangeError_length).
Proof.
  destruct char as [c|]; [by left|]. rewrite append_unfold.
  destruct (_ <? _)%N; [by right|by left].
Qed.

(** The scan of a number neither throws nor steps over a double quote. *)
Lemma number_loop_quotes fuel input current numberValue :
  match number_loop fuel input current (input !! current) numberValue with
  | Ok (current', _) =>
      quotes (drop current' input) = quotes (drop current input)
  | Throw _ => False
  | OutOfFuel => True
  end.
Proof.
  revert current numberValue.
  induction fuel as [|fuel IH]; intros current numberValue;
    cbn [number_loop]; [done|].
  destruct (numberReg (input !! current)) eqn:E; [|done].
  apply digit_not_quote in E as Hq.
  destruct (input !! current) as [c|] eqn:Ec; [|done].
  cbn [append mbind outcome_bind].
  specialize (IH (S current) (numberValue ++ [c])).
  destruct (number_loop _ _ _ _ _) as [[current' v]| |]; try done.
  rewrite IH. apply quotes_drop_skip. by rewrite Ec.
Qed.

(** The scan of a name does not step over a double quote, and throws
    nothing but the [RangeError]. *)
Lemma letter_loop_quotes fuel input current letterValue :
  match letter_loop fuel input current (input !! current) letterValue with
  | Ok (current', _) =>
      quotes (drop current' input) = quotes (drop current input)
  | Throw e => e = RangeError_length
  | OutOfFuel => True
  end.
Proof.
  revert current letterValue.
  induction fuel as [|fuel IH]; intros current letterValue;
    cbn [letter_loop]; [done|].
  destruct (letterReg (input !! current)) eqn:E; [|done].
  destruct (append_cases letterValue (input !! current)) as [->|[_ ->]];
    [|done].
  cbn [mbind outcome_bind].
  specialize (IH (S current) (letterValue ++ text_of (input !! current))).
  destruct (letter_loop _ _ _ _ _) as [[current' v]| |]; try done.
  rewrite IH. by apply quotes_drop_skip, letter_not_quote.
Qed.

(** The scan of a string ends on a double quote only. *)
Lemma string_loop_quotes fuel input current stringValue :
  match string_loop fuel input current (input !! current) stringValue with
  | Ok (current', _) =>
      input !! current' = Some quote
      ∧ quotes (drop current' input) = quotes (drop current input)
  | Throw e => e = RangeError_length
  | OutOfFuel => True
  end.
Proof.
  revert current stringValue.
  induction fuel as [|fuel IH]; intros current stringValue;
    cbn [string_loop]; [done|].
  destruct (decide (input !! current = Some quote)) as [E|E]; [done|].
  destruct (append_cases stringValue (input !! current)) as [->|[_ ->]];
    [|done].
  cbn [mbind outcome_bind].
  specialize (IH (S current) (stringValue ++ text_of (input !! current))).
  destruct (string_loop _ _ _ _ _) as [[current' v]| |]; try done.
  destruct IH as [? ->]. split; [done|]. by apply quotes_drop_skip.
Qed.

(** Without a double quote ahead, the scan of a string never returns. *)
Lemma string_loop_no_quote fuel input current stringValue r :
  quotes (drop current input) = 0 →
  string_loop fuel input current (input !! current) stringValue ≠ Ok r.
Proof.
  intros H0 Hr.
  pose proof (string_loop_quotes fuel input current stringValue) as H.
  rewrite Hr in H. destruct r as [current' v]. destruct H as [Hq H].
  apply quotes_drop_quote in Hq. lia.
Qed.

(** Beyond the end of the input the scan of a string appends the text of
    [undefined] at every step; it ends when the engine refuses the length
    of the string. *)
Lemma string_loop_beyond_throws (k : nat) :
  ∀ input current stringValue fuel,
    length input ≤ current →
    (max_string_length < N.of_nat (length stringValue + 9 * S k))%N →
    k < fuel →
    string_loop fuel input current None stringValue = Throw RangeError_length.
Proof.
  induction k as [|k IH]; intros input current v [|fuel] Hge Hmax Hfuel;
    try lia; cbn [string_loop]; rewrite decide_False by done;
    rewrite append_unfold, length_app; change (length (text_of None)) with 9.
  - replace (_ <? _)%N with true; [done|]. symmetry. apply N.ltb_lt. lia.
  - destruct (_ <? _)%N; [done|]. cbn [mbind outcome_bind].
    rewrite (proj2 (lookup_ge_None input (S current))) by lia.
    apply IH; [lia| |lia]. rewrite length_app.
    change (length (text_of None)) with 9. lia.
Qed.

(** The same for the scan of a name. *)
Lemma letter_loop_beyond_throws (k : nat) :
  ∀ input current letterValue fuel,
    length input ≤ current →
    (max_string_length < N.of_nat (length letterValue + 9 * S k))%N →
    k < fuel →
    letter_loop fuel input current None letterValue = Throw RangeError_length.
Proof.
  induction k as [|k IH]; intros input current v [|fuel] Hge Hmax Hfuel;
    try lia; cbn [letter_loop letterReg from_option];
    rewrite (proj2 (lookup_ge_None input current)) by lia;
    rewrite append_unfold, length_app; change (length (text_of None)) with 9.
  - replace (_ <? _)%N with true; [done|]. symmetry. apply N.ltb_lt. lia.
  - destruct (_ <? _)%N; [done|]. cbn [mbind outcome_bind].
    rewrite (proj2 (lookup_ge_None input (S current))) by lia.
    apply IH; [lia| |lia]. rewrite length_app.
    change (length (text_of None)) with 9. lia.
Qed.

(** The fuel after which a scan beyond the end of the input has thrown,
    whatever it had collected. *)
Lemma enough_steps :
  ∃ k, ∀ n, (max_string_length < N.of_nat (n + 9 * S k))%N.
Proof. exists (N.to_nat max_string_length). intros n. lia. Qed.

(** Without a double quote ahead, the scan of a string goes through the
    rest of the input and on from its end. *)
Lemma string_loop_to_end input (n : nat) :
  ∀ current fuel stringValue,
    n + current = length input →
    quotes (drop current input) = 0 →
    string_loop (n + fuel) input current (input !! current) stringValue
    = string_loop fuel input (length input) None
        (stringValue ++ drop current input).
Proof.
  induction n as [|n IH]; intros current fuel v Hn H0.
  - cbn [Nat.add] in *. subst current.
    rewrite (proj2 (lookup_ge_None input (length input))) by lia.
    by rewrite drop_all, app_nil_r.
  - destruct (input !! current) as [c|] eqn:Ec.
    2:{ apply lookup_ge_None in Ec. lia. }
    cbn [Nat.add string_loop].
    destruct (decide (Some c = Some quote)) as [[= ->]|_].
    { apply quotes_drop_quote in Ec. lia. }
    cbn [append mbind outcome_bind].
    rewrite IH; [|lia|].
    + by rewrite (drop_S _ _ _ Ec), <- app_assoc.
    + rewrite quotes_drop_skip; [done|]. rewrite Ec. intros [= ->].
      apply quotes_drop_quote in Ec. lia.
Qed.

(** So that scan ends with the [RangeError], given enough fuel. *)
Lemma string_loop_throws input current stringValue :
  current ≤ length input →
  quotes (drop current input) = 0 →
  ∃ fuel0, ∀ fuel, fuel0 ≤ fuel →
    string_loop fuel input current (input !! current) stringValue
    = Throw RangeError_length.
Proof.
  intros Hle H0. destruct enough_steps as [k Hk].
  exists (length input - current + S k). intros fuel Hfuel.
  replace fuel
    with (length input - current + (fuel - (length input - current)))
    by lia.
  rewrite string_loop_to_end by (done || lia).
  apply (string_loop_beyond_throws k); [done|apply Hk|lia].
Qed.

(** The scan of a name that has only letters ahead goes through the rest
    of the input and on from its end, and ends with the [RangeError]. *)
Lemma letter_loop_to_end input (n : nat) :
  ∀ current fuel letterValue,
    n + current = length input →
    forallb is_letter (drop current input) = true →
    letter_loop (n + fuel) input current (input !! current) letterValue
    = letter_loop fuel input (length input) None
        (letterValue ++ drop current input).
Proof.
  induction n as [|n IH]; intros current fuel v Hn Hletters.
  - cbn [Nat.add] in *. subst current.
    rewrite (proj2 (lookup_ge_None input (length input))) by lia.
    by rewrite drop_all, app_nil_r.
  - destruct (input !! current) as [c|] eqn:Ec.
    2:{ apply lookup_ge_None in Ec. lia. }
    rewrite (drop_S _ _ _ Ec) in *. cbn [forallb] in Hletters.
    apply andb_true_iff in Hletters as [Hc Hletters].
    cbn [Nat.add letter_loop letterReg from_option]. rewrite Hc, Ec.
    cbn [append mbind outcome_bind].
    rewrite IH by (done || lia). by rewrite <- app_assoc.
Qed.

Lemma letter_loop_throws input current letterValue :
  current ≤ length input →
  forallb is_letter (drop current input) = true →
  ∃ fuel0, ∀ fuel, fuel0 ≤ fuel →
    letter_loop fuel input current (input !! current) letterValue
    = Throw RangeError_length.
Proof.
  intros Hle Hletters. destruct enough_steps as [k Hk].
  exists (length input - current + S k). intros fuel Hfuel.
  replace fuel
    with (length input - current + (fuel - (length input - current)))
    by lia.
  rewrite letter_loop_to_end by (done || lia).
  apply (letter_loop_beyond_throws k); [done|apply Hk|lia].
Qed.

(** With an odd number of double quotes ahead, the main loop never
    returns: it is still running, or the scan of the last string has
    thrown. *)
Lemma main_loop_odd_quotes fuel input current tokens console :
  Nat.odd (quotes (drop current input)) = true →
  main_loop fuel input current tokens console = OutOfFuel
  ∨ main_loop fuel input current tokens console = Throw RangeError_length.
Proof.
  revert current tokens console.
  induction fuel as [|fuel IH]; intros current tokens console Hodd;
    cbn [main_loop]; [by left|].
  destruct (decide (current < length input)) as [Hlt|Hge].
  2:{ rewrite drop_ge in Hodd by lia. discriminate Hodd. }
  cbn zeta. destruct (numberReg (input !! current)) eqn:Enum.
  { pose proof (number_loop_quotes fuel input current []) as H.
    destruct (number_loop _ _ _ _ _) as [[current' v]| |];
      cbn [mbind outcome_bind]; [|done|by left].
    apply IH. by rewrite H. }
  destruct (letterReg (input !! current)) eqn:Elet.
  { pose proof (letter_loop_quotes fuel input current []) as H.
    destruct (letter_loop _ _ _ _ _) as [[current' v]| |];
      cbn [mbind outcome_bind]; [|right; by subst|by left].
    apply IH. by rewrite H. }
  destruct (parenReg (input !! current)) eqn:Epar.
  { apply IH. by rewrite quotes_drop_skip by by apply paren_not_quote. }
  destruct (whiteSpaceReg (input !! current)) eqn:Ews.
  { apply IH. by rewrite quotes_drop_skip by by apply whitespace_not_quote. }
  destruct (decide (input !! current = Some quote)) as [Eq|Eq].
  { pose proof (string_loop_quotes fuel input (S current) []) as H.
    destruct (string_loop _ _ _ _ _) as [[current' v]| |];
      cbn [mbind outcome_bind]; [|right; by subst|by left].
    destruct H as [Hq H]. apply IH.
    rewrite (quotes_drop_quote _ _ Eq), <- H, (quotes_drop_quote _ _ Hq)
      in Hodd.
    by rewrite Nat.odd_succ, Nat.even_succ in Hodd. }
  by apply IH.
Qed.

(** A character of none of the five classes stops the main loop from
    advancing. *)
Lemma main_loop_default fuel input current tokens console :
  current < length input →
  numberReg (input !! current) = false →
  letterReg (input !! current) = false →
  parenReg (input !! current) = false →
  whiteSpaceReg (input !! current) = false →
  input !! current ≠ Some quote →
  main_loop fuel input current tokens console = OutOfFuel.
Proof.
  intros Hlt Hn Hl Hp Hw Hq. revert tokens console.
  induction fuel as [|fuel IH]; intros tokens console; simpl; [done|].
  rewrite decide_True by done. rewrite Hn, Hl, Hp, Hw.
  rewrite decide_False by done. apply IH.
Qed.

(** More fuel does not change a result, nor an exception. *)
Lemma number_loop_mono fuel fuel' input current char numberValue :
  number_loop fuel input current char numberValue ≠ OutOfFuel → fuel ≤ fuel' →
  number_loop fuel' input current char numberValue
  = number_loop fuel input current char numberValue.
Proof.
  revert fuel' current char numberValue.
  induction fuel as [|fuel IH]; intros [|fuel'] ?? v; cbn [number_loop];
    try done; try lia.
  intros H Hle. destruct (numberReg char); [|done].
  destruct (append v _); cbn [mbind outcome_bind] in *; [|done|done].
  apply IH; [done|lia].
Qed.

Lemma letter_loop_mono fuel fuel' input current char letterValue :
  letter_loop fuel input current char letterValue ≠ OutOfFuel → fuel ≤ fuel' →
  letter_loop fuel' input current char letterValue
  = letter_loop fuel input current char letterValue.
Proof.
  revert fuel' current char letterValue.
  induction fuel as [|fuel IH]; intros [|fuel'] ?? v; cbn [letter_loop];
    try done; try lia.
  intros H Hle. destruct (letterReg char); [|done].
  destruct (append v _); cbn [mbind outcome_bind] in *; [|done|done].
  apply IH; [done|lia].
Qed.

Lemma string_loop_mono fuel fuel' input current char stringValue :
  string_loop fuel input current char stringValue ≠ OutOfFuel → fuel ≤ fuel' →
  string_loop fuel' input current char stringValue
  = string_loop fuel input current char stringValue.
Proof.
  revert fuel' current char stringValue.
  induction fuel as [|fuel IH]; intros [|fuel'] ?? v; cbn [string_loop];
    try done; try lia.
  intros H Hle. destruct (decide (char = Some quote)); [done|].
  destruct (append v _); cbn [mbind outcome_bind] in *; [|done|done].
  apply IH; [done|lia].
Qed.

Lemma main_loop_mono fuel fuel' input current tokens console :
  main_loop fuel input current tokens console ≠ OutOfFuel → fuel ≤ fuel' →
  main_loop fuel' input current tokens console
  = main_loop fuel input current tokens console.
Proof.
  revert fuel' current tokens console.
  induction fuel as [|fuel IH]; intros [|fuel'] current tokens console;
    cbn [main_loop]; try done; try lia.
  intros H Hle. assert (fuel ≤ fuel') as Hle' by lia.
  destruct (decide (current < length input)); [|done]. cbn zeta in *.
  destruct (numberReg (input !! current)).
  { destruct (number_loop fuel _ _ _ _) as [[c v]| |] eqn:E; try done.
    - rewrite (number_loop_mono fuel fuel'), E by (by rewrite ?E).
      by apply IH.
    - by rewrite (number_loop_mono fuel fuel'), E by (by rewrite ?E). }
  destruct (letterReg (input !! current)).
  { destruct (letter_loop fuel _ _ _ _) as [[c v]| |] eqn:E; try done.
    - rewrite (letter_loop_mono fuel fuel'), E by (by rewrite ?E).
      by apply IH.
    - by rewrite (letter_loop_mono fuel fuel'), E by (by rewrite ?E). }
  destruct (parenReg (input !! current)); [by apply IH|].
  destruct (whiteSpaceReg (input !! current)); [by apply IH|].
  destruct (decide (input !! current = Some quote)); [|by apply IH].
  destruct (string_loop fuel _ _ _ _) as [[c v]| |] eqn:E; try done.
  - rewrite (string_loop_mono fuel fuel'), E by (by rewrite ?E). by apply IH.
  - by rewrite (string_loop_mono fuel fuel'), E by (by rewrite ?E).
Qed.

Lemma tokenizer_mono fuel fuel' input tokens :
  tokenizer fuel input = Ok tokens → fuel ≤ fuel' →
  tokenizer fuel' input = Ok tokens.
Proof.
  unfold tokenizer, run. intros H Hle.
  destruct (main_loop fuel input 0 [] []) as [r| |] eqn:E; try done.
  by rewrite (main_loop_mono fuel fuel'), E by (by rewrite ?E).
Qed.

(** The tokenizer throws nothing but the [RangeError]. *)
Lemma main_loop_throws fuel input current tokens console e :
  main_loop fuel input current tokens console = Throw e →
  e = RangeError_length.
Proof.
  revert current tokens console.
  induction fuel as [|fuel IH]; intros current tokens console;
    cbn [main_loop]; [done|].
  destruct (decide (current < length input)); [|done]. cbn zeta.
  destruct (numberReg (input !! current)).
  { pose proof (number_loop_quotes fuel input current []) as H.
    destruct (number_loop _ _ _ _ _) as [[c v]| |];
      cbn [mbind outcome_bind]; try done. apply IH. }
  destruct (letterReg (input !! current)).
  { pose proof (letter_loop_quotes fuel input current []) as H.
    destruct (letter_loop _ _ _ _ _) as [[c v]| |];
      cbn [mbind outcome_bind]; try done; [apply IH|congruence]. }
  destruct (parenReg (input !! current)); [apply IH|].
  destruct (whiteSpaceReg (input !! current)); [apply IH|].
  destruct (decide (input !! current = Some quote)); [|apply IH].
  pose proof (string_loop_quotes fuel input (S current) []) as H.
  destruct (string_loop _ _ _ _ _) as [[c v]| |];
    cbn [mbind outcome_bind]; try done; [apply IH|congruence].
Qed.

End TokenizerFacts.

Example tokenizer_example :
  tokenizer 30 (codes "(add 2 (subtract 4 2))") =
  Ok [Token tk_paren (codes "("); Token tk_name (codes "add");
      Token tk_number (codes "2"); Token tk_paren (codes "(");
      Token tk_name (codes "subtract"); Token tk_number (codes "4");
      Token tk_number (codes "2"); Token tk_paren (codes ")");
      Token tk_paren (codes ")")].
Proof. vm_compute. reflexivity. Qed.

(** C1.  The specification has [tokenizer] return for every input, a
    character of no class being logged and skipped.  On the input ["#"]
    the default case logs the character and leaves [current] where it is,
    so the main loop reads the same character again for ever: whatever
    the fuel, [tokenizer] has not returned. *)
Theorem tokenizer_unknown_character_never_returns :
  ∀ fuel, tokenizer fuel (codes "#") = OutOfFuel.
Proof.
  intros fuel. unfold tokenizer, Tokenizer.run.
  by rewrite TokenizerFacts.main_loop_default by (done || (simpl; lia)).
Qed.

(** C10, as the specification states it, fails: on a text whose only
    double quote is not closed, [tokenizer] does end, with the
    [RangeError] that the engine throws when the collected string has
    become too long. *)
Lemma tokenizer_unmatched_quote_throws :
  ∃ fuel,
    tokenizer fuel (codes "(foo " ++ [quote] ++ codes "bar)")
    = Throw RangeError_length.
Proof.
  destruct (TokenizerFacts.string_loop_throws
              (codes "(foo " ++ [quote] ++ codes "bar)") 8 (codes "ba"))
    as [fuel0 H]; [simpl; lia|done|].
  exists (6 + fuel0). specialize (H fuel0 (le_n _)).
  vm_compute in H. vm_compute. by rewrite H.
Qed.

(** C10, amended.  Let the double quote at index [i] of [input] open a
    string (the double quotes before it are even in number) and let no
    double quote follow it.  Then the string scan started after it never
    meets a closing quote, whatever the fuel and the text collected so
    far: it goes through the rest of [input] and on from its end, where
    it appends the text of [undefined] at every step, until the engine
    throws its [RangeError].  And [tokenizer] never returns on [input]:
    at every fuel it is still running or has thrown that [RangeError]. *)
Theorem tokenizer_unmatched_quote_never_returns (input : jsstring) (i : nat) :
  input !! i = Some quote →
  Nat.even (quotes (take i input)) = true →
  quotes (drop (S i) input) = 0 →
  (∀ fuel stringValue r,
     Tokenizer.string_loop fuel input (S i) (input !! S i) stringValue
     ≠ Ok r)
  ∧ (∀ fuel stringValue,
       Tokenizer.string_loop (length input - S i + fuel) input (S i)
         (input !! S i) stringValue
       = Tokenizer.string_loop fuel input (length input) None
           (stringValue ++ drop (S i) input))
  ∧ (∀ stringValue, ∃ fuel0, ∀ fuel, fuel0 ≤ fuel →
       Tokenizer.string_loop fuel input (S i) (input !! S i) stringValue
       = Throw RangeError_length)
  ∧ (∀ fuel,
       tokenizer fuel input = OutOfFuel
       ∨ tokenizer fuel input = Throw RangeError_length).
Proof.
  intros Hi Heven Hnone.
  assert (S i ≤ length input) as Hlt by by apply lookup_lt_Some in Hi.
  split; [|split; [|split]].
  - intros fuel stringValue r. by apply TokenizerFacts.string_loop_no_quote.
  - intros fuel stringValue.
    apply TokenizerFacts.string_loop_to_end; [lia|done].
  - intros stringValue. by apply TokenizerFacts.string_loop_throws.
  - intros fuel. unfold tokenizer, Tokenizer.run.
    destruct (TokenizerFacts.main_loop_odd_quotes fuel input 0 [] [])
      as [-> | ->]; [|by left|by right].
    rewrite drop_0, <- (take_drop i input) at 1. unfold quotes in *.
    rewrite filter_app, length_app.
    pose proof (TokenizerFacts.quotes_drop_quote input i Hi) as Hq.
    unfold quotes in Hq. rewrite Hq, Hnone, Nat.add_1_r, Nat.odd_succ.
    exact Heven.
Qed.

(** The same for a text whose only double quote is at index 5. *)
Lemma tokenizer_unmatched_quote_witness :
  let input := codes "(foo " ++ [quote] ++ codes "bar)" in
  (∀ fuel stringValue r,
     Tokenizer.string_loop fuel input 6 (input !! 6) stringValue ≠ Ok r)
  ∧ (∀ fuel stringValue,
       Tokenizer.string_loop (4 + fuel) input 6 (input !! 6) stringValue
       = Tokenizer.string_loop fuel input 10 None
           (stringValue ++ codes "bar)"))
  ∧ (∀ stringValue, ∃ fuel0, ∀ fuel, fuel0 ≤ fuel →
       Tokenizer.string_loop fuel input 6 (input !! 6) stringValue
       = Throw RangeError_length)
  ∧ (∀ fuel,
       tokenizer fuel input = OutOfFuel
       ∨ tokenizer fuel input = Throw RangeError_length).
Proof.
  exact (tokenizer_unmatched_quote_never_returns
           (codes "(foo " ++ [quote] ++ codes "bar)") 5
           eq_refl eq_refl eq_refl).
Defined.

(** * Properties of the parser *)

Module ParserFacts.
Import Parser.

(** A call of [walk] that returns has advanced [current]. *)
Lemma walk_advances fuel :
  (∀ tokens st n st1,
     walk fuel tokens st = Ok (n, st1) → current st < current st1)
  ∧ (∀ tokens name params st n st1,
       params_loop fuel tokens name params st = Ok (n, st1) →
       current st < current st1).
Proof.
  induction fuel as [|fuel [IHw IHl]]; [by split|].
  split.
  - intros tokens [current t] n st1; simpl.
    destruct t as [t|]; [|done].
    destruct (type t); try done.
    + destruct (decide (value t = codes "(")); [|done].
      destruct (tokens !! S current) as [t1|]; [|done].
      intros H%IHl. simpl in H. lia.
    + intros [= <- <-]. simpl. lia.
    + intros [= <- <-]. simpl. lia.
  - intros tokens name params [current t] n st1; simpl.
    destruct t as [t|]; [|done].
    destruct (not_closing t).
    + destruct (walk fuel tokens _) as [[param st2]| |] eqn:E; try done.
      simpl. intros H%IHl. apply IHw in E. simpl in *. lia.
    + intros [= <- <-]. simpl. lia.
Qed.

(** The fuel that [walk] and its loop need, in terms of the number of
    tokens that are left. *)
Lemma walk_fuel_enough fuel :
  (∀ tokens st,
     0 < fuel → length tokens - current st ≤ fuel →
     walk fuel tokens st ≠ OutOfFuel)
  ∧ (∀ tokens name params st,
       tok st = tokens !! current st →
       length tokens - current st < fuel →
       params_loop fuel tokens name params st ≠ OutOfFuel).
Proof.
  induction fuel as [|fuel [IHw IHl]]; [split; intros; lia|].
  split.
  - intros tokens [current t] _ Hfuel; simpl in *.
    destruct t as [t|]; [|done].
    destruct (type t); try done.
    destruct (decide (value t = codes "(")); [|done].
    destruct (tokens !! S current) as [t1|] eqn:E1; [|done].
    apply lookup_lt_Some in E1. apply IHl; simpl; [done|lia].
  - intros tokens name params [current t] Hsync Hfuel; simpl in *.
    destruct t as [t|]; [|done].
    symmetry in Hsync. apply lookup_lt_Some in Hsync.
    destruct (not_closing t); [|done].
    destruct (walk fuel tokens _) as [[param st2]| |] eqn:E; simpl; try done.
    + apply (proj1 (walk_advances fuel)) in E. simpl in E.
      apply IHl; simpl; [done|lia].
    + exfalso. revert E. apply IHw; simpl; lia.
Qed.

Lemma body_loop_fuel_enough fuel tokens body st :
  length tokens - current st < fuel →
  body_loop fuel tokens body st ≠ OutOfFuel.
Proof.
  revert body st. induction fuel as [|fuel IH]; intros body st Hfuel; [lia|].
  simpl. destruct (decide (current st < length tokens)); [|done].
  destruct (walk fuel tokens st) as [[n st1]| |] eqn:E; simpl; try done.
  - apply (proj1 (walk_advances fuel)) in E. apply IH. lia.
  - exfalso. revert E. apply (proj1 (walk_fuel_enough fuel)); lia.
Qed.

(** [parser] always returns or throws. *)
Lemma parser_fuel_enough (tokens : list token) : parser tokens ≠ OutOfFuel.
Proof.
  unfold parser, run.
  pose proof (body_loop_fuel_enough (S (length tokens)) tokens []
                (State 0 (tokens !! 0))) as H.
  destruct (body_loop _ _ _ _); try done. exfalso. apply H; simpl; [lia|done].
Qed.

(** The loop of a call returns a [CallExpression] of the name it was
    started with. *)
Lemma params_loop_name fuel tokens name params st n st1 :
  params_loop fuel tokens name params st = Ok (n, st1) →
  ∃ params', n = CallExpression name params'.
Proof.
  revert params st. induction fuel as [|fuel IH]; intros params st; [done|].
  simpl. destruct (tok st) as [t|]; [|done].
  destruct (not_closing t).
  - destruct (walk fuel tokens st) as [[param st2]| |]; try done.
    simpl. apply IH.
  - intros [= <- <-]. by eexists.
Qed.

(** More fuel does not change what [walk] returns or throws. *)
Lemma walk_mono fuel :
  (∀ fuel' tokens st r,
     walk fuel tokens st = r → r ≠ OutOfFuel → fuel ≤ fuel' →
     walk fuel' tokens st = r)
  ∧ (∀ fuel' tokens name params st r,
       params_loop fuel tokens name params st = r → r ≠ OutOfFuel →
       fuel ≤ fuel' → params_loop fuel' tokens name params st = r).
Proof.
  induction fuel as [|fuel [IHw IHl]].
  { split; intros; simpl in *; congruence. }
  split.
  - intros [|fuel'] tokens st r Hr Hne Hle; [lia|]. simpl in *.
    destruct (tok st) as [t|]; [|done].
    destruct (type t); try done.
    destruct (decide (value t = codes "(")); [|done].
    destruct (tokens !! S (current st)); [|done].
    apply IHl; [done|done|lia].
  - intros [|fuel'] tokens name params st r Hr Hne Hle; [lia|]. simpl in *.
    destruct (tok st) as [t|]; [|done].
    destruct (not_closing t); [|done].
    destruct (walk fuel tokens st) as [[param st2]| |] eqn:E.
    + rewrite (IHw fuel' _ _ _ E) by (done || lia). simpl in *.
      apply IHl; [done|done|lia].
    + rewrite (IHw fuel' _ _ _ E) by (done || lia). done.
    + simpl in Hr. congruence.
Qed.

(** The run of [walk] on a sequence, compared with its run on the
    sequence extended by [suffix]: the same result when the longer run
    stays within the shorter sequence, and an exception otherwise. *)
Lemma walk_prefix fuel :
  (∀ tokens suffix st n st1,
     tok st = (tokens ++ suffix) !! current st →
     walk fuel (tokens ++ suffix) st = Ok (n, st1) →
     if decide (current st1 ≤ length tokens)
     then walk fuel tokens (State (current st) (tokens !! current st))
          = Ok (n, st1)
     else ∃ e, walk fuel tokens (State (current st) (tokens !! current st))
               = Throw e)
  ∧ (∀ tokens suffix name params st n st1,
       tok st = (tokens ++ suffix) !! current st →
       params_loop fuel (tokens ++ suffix) name params st = Ok (n, st1) →
       if decide (current st1 ≤ length tokens)
       then params_loop fuel tokens name params
              (State (current st) (tokens !! current st)) = Ok (n, st1)
       else ∃ e, params_loop fuel tokens name params
                   (State (current st) (tokens !! current st)) = Throw e).
Proof.
  induction fuel as [|fuel [IHw IHl]]; [by split|].
  split.
  - intros tokens suffix [cur t] n st1 Hsync Hrun.
    pose proof (proj1 (walk_advances (S fuel)) _ _ _ _ Hrun) as Hadv.
    simpl in *. destruct t as [t|]; [|done].
    destruct (decide (cur < length tokens)) as [Hin|Hout].
    2:{ rewrite decide_False by lia.
        rewrite (lookup_ge_None_2 tokens cur) by lia. by eexists. }
    rewrite lookup_app_l in Hsync by done. rewrite <- Hsync.
    destruct (type t); try done.
    + destruct (decide (value t = codes "(")); [|done].
      destruct ((tokens ++ suffix) !! S cur) as [t1|] eqn:E1; [|done].
      destruct (decide (S cur < length tokens)) as [Hin1|Hout1].
      * rewrite lookup_app_l in E1 by done. rewrite E1.
        by apply (IHl tokens suffix (value t1) []
                    (State (S (S cur)) ((tokens ++ suffix) !! S (S cur)))).
      * apply (proj2 (walk_advances fuel)) in Hrun. simpl in Hrun.
        rewrite decide_False by lia.
        rewrite (lookup_ge_None_2 tokens (S cur)) by lia. by eexists.
    + injection Hrun as <- <-. simpl. by rewrite decide_True by lia.
    + injection Hrun as <- <-. simpl. by rewrite decide_True by lia.
  - intros tokens suffix name params [cur t] n st1 Hsync Hrun.
    pose proof (proj2 (walk_advances (S fuel)) _ _ _ _ _ _ Hrun) as Hadv.
    simpl in *. destruct t as [t|]; [|done].
    destruct (decide (cur < length tokens)) as [Hin|Hout].
    2:{ rewrite decide_False by lia.
        rewrite (lookup_ge_None_2 tokens cur) by lia. by eexists. }
    rewrite lookup_app_l in Hsync by done. rewrite <- Hsync.
    destruct (not_closing t).
    + destruct (walk fuel (tokens ++ suffix) _) as [[param st2]| |] eqn:E;
        try done.
      simpl in Hrun.
      pose proof (IHw tokens suffix (State cur (Some t)) param st2) as Hw.
      simpl in Hw. rewrite lookup_app_l in Hw by done.
      specialize (Hw Hsync E). rewrite <- Hsync in Hw.
      destruct (decide (current st2 ≤ length tokens)) as [Hin2|Hout2].
      * rewrite Hw. simpl.
        by apply (IHl tokens suffix name (params ++ [param])
                    (State (current st2)
                       ((tokens ++ suffix) !! current st2))).
      * apply (proj2 (walk_advances fuel)) in Hrun. simpl in Hrun.
        rewrite decide_False by lia. destruct Hw as [e ->]. by eexists.
    + injection Hrun as <- <-. simpl. by rewrite decide_True by lia.
Qed.

(** A sequence that ends before its first expression is complete: an
    unclosed call at the start of the sequence.  [parser] throws. *)
Lemma parser_unterminated_call (tokens suffix : list token) (fuel : nat)
    (n : node) (st1 : state) :
  tokens ≠ [] → suffix ≠ [] →
  walk fuel (tokens ++ suffix) (State 0 ((tokens ++ suffix) !! 0))
  = Ok (n, st1) →
  current st1 = length (tokens ++ suffix) →
  ∃ e, parser tokens = Throw e.
Proof.
  intros Htokens Hsuffix Hrun Hend.
  pose proof (proj1 (walk_prefix fuel) tokens suffix
                (State 0 ((tokens ++ suffix) !! 0)) _ _ eq_refl Hrun)
    as Hshort.
  rewrite decide_False in Hshort.
  2:{ rewrite Hend, length_app. destruct suffix; [done|simpl; lia]. }
  destruct Hshort as [e Hshort]. simpl in Hshort. exists e.
  assert (0 < length tokens) as Hlen by (destruct tokens; [done|simpl; lia]).
  assert (walk (length tokens) tokens (State 0 (tokens !! 0)) = Throw e)
    as Hwalk.
  { destruct (walk (length tokens) tokens (State 0 (tokens !! 0))) as [r| |]
      eqn:E.
    - apply (proj1 (walk_mono _) (fuel `max` length tokens)) in E;
        [|done|lia].
      apply (proj1 (walk_mono _) (fuel `max` length tokens)) in Hshort;
        [|done|lia].
      congruence.
    - apply (proj1 (walk_mono _) (fuel `max` length tokens)) in E;
        [|done|lia].
      apply (proj1 (walk_mono _) (fuel `max` length tokens)) in Hshort;
        [|done|lia].
      congruence.
    - exfalso. revert E. apply (proj1 (walk_fuel_enough _)); simpl; lia. }
  unfold parser, run. simpl. rewrite decide_True by done.
  by rewrite Hwalk.
Qed.

(** Every node that [walk] returns is a literal or a call of literals and
    calls. *)
Lemma walk_expression fuel :
  (∀ tokens st n st1,
     walk fuel tokens st = Ok (n, st1) → is_expression n = true)
  ∧ (∀ tokens name params st n st1,
       forallb is_expression params = true →
       params_loop fuel tokens name params st = Ok (n, st1) →
       is_expression n = true).
Proof.
  induction fuel as [|fuel [IHw IHl]]; [by split|].
  split.
  - intros tokens st n st1; simpl.
    destruct (tok st) as [t|]; [|done].
    destruct (type t); try done.
    + destruct (decide (value t = codes "(")); [|done].
      destruct (tokens !! S (current st)); [|done]. by apply IHl.
    + by intros [= <- <-].
    + by intros [= <- <-].
  - intros tokens name params st n st1 Hparams; simpl.
    destruct (tok st) as [t|]; [|done].
    destruct (not_closing t).
    + destruct (walk fuel tokens st) as [[param st2]| |] eqn:E; try done.
      simpl. apply IHl. rewrite forallb_app, Hparams. simpl.
      by rewrite (IHw _ _ _ _ E).
    + by intros [= <- <-].
Qed.

(** Every tree that [parser] returns is valid. *)
Lemma parser_valid (tokens : list token) (ast : node) :
  parser tokens = Ok ast → valid ast = true.
Proof.
  unfold parser, run. generalize (S (length tokens)) as fuel.
  generalize (State 0 (tokens !! 0)) as st.
  assert (∀ fuel st body l,
            forallb is_expression body = true →
            body_loop fuel tokens body st = Ok l →
            forallb is_expression l = true) as Hloop.
  { induction fuel as [|fuel IH]; intros st body l Hbody; [done|]. simpl.
    destruct (decide (current st < length tokens)); [|by intros [= <-]].
    destruct (walk fuel tokens st) as [[n st2]| |] eqn:E; try done.
    simpl. apply IH. rewrite forallb_app, Hbody. simpl.
    by rewrite (proj1 (walk_expression fuel) _ _ _ _ E). }
  intros st fuel.
  destruct (body_loop fuel tokens [] st) as [l| |] eqn:E; try done.
  intros [= <-]. by apply (Hloop fuel st [] l).
Qed.

(** [walk] reads no token before [current]: its outcome is the same on
    two token sequences that agree from [current] on. *)
Lemma walk_reads_ahead fuel :
  (∀ tokens tokens' st,
     (∀ i, current st ≤ i → tokens !! i = tokens' !! i) →
     walk fuel tokens st = walk fuel tokens' st)
  ∧ (∀ tokens tokens' name params st,
       (∀ i, current st ≤ i → tokens !! i = tokens' !! i) →
       params_loop fuel tokens name params st
       = params_loop fuel tokens' name params st).
Proof.
  induction fuel as [|fuel [IHw IHl]]; [by split|]. split.
  - intros tokens tokens' [current t] H; simpl in *.
    destruct t as [t|]; [|done]. destruct (type t); try done.
    destruct (decide (value t = codes "(")); [|done].
    rewrite <- (H (S current)) by lia.
    destruct (tokens !! S current); [|done].
    rewrite <- (H (S (S current))) by lia.
    apply IHl. simpl. intros i Hi. apply H. lia.
  - intros tokens tokens' name params st H. simpl.
    destruct (tok st) as [t|]; [|done].
    destruct (not_closing t); [|done].
    rewrite <- (IHw tokens tokens' st H).
    destruct (walk fuel tokens st) as [[param st1]| |] eqn:E; [|done|done].
    simpl. apply (proj1 (walk_advances fuel)) in E.
    rewrite <- (H (current st1)) by lia.
    apply IHl. simpl. intros i Hi. apply H. lia.
Qed.

End ParserFacts.

Example unterminated_call_example :
  ∃ e, parser [Token tk_paren (codes "("); Token tk_name (codes "add");
               Token tk_number (codes "2")] = Throw e.
Proof.
  apply (ParserFacts.parser_unterminated_call _ [Token tk_paren (codes ")")] 4
           (CallExpression (codes "add") [NumberLiteral (codes "2")])
           (Parser.State 4 (Some (Token tk_paren (codes ")"))))); done.
Qed.

(** C3.  The specification has [parser] fail on every token sequence in
    which a call is opened and not closed.  The tokens of ["1 (add "] open
    the call [add] and end before it is closed, and [parser] returns a
    tree: after the first [walk] the variable [token] is not read again
    from [tokens], so each further [walk] of the top-level loop sees the
    number token once more, until [current] has reached the end.  (When
    the unclosed call starts the sequence, [parser] throws:
    [ParserFacts.parser_unterminated_call].) *)
Theorem parser_returns_tree_for_unclosed_call :
  tokenizer 8 (codes "1 (add ") =
    Ok [Token tk_number (codes "1"); Token tk_paren (codes "(");
        Token tk_name (codes "add")]
  ∧ parser [Token tk_number (codes "1"); Token tk_paren (codes "(");
            Token tk_name (codes "add")] =
    Ok (Program [NumberLiteral (codes "1"); NumberLiteral (codes "1");
                 NumberLiteral (codes "1")]).
Proof. split; vm_compute; reflexivity. Qed.

(** C4, as the specification states it, fails: after an opening
    parenthesis a number token is taken as the name of the call. *)
Lemma parser_accepts_number_as_name :
  type (Token tk_number (codes "2")) ≠ tk_name
  ∧ parser [Token tk_paren (codes "("); Token tk_number (codes "2");
            Token tk_paren (codes ")")] =
    Ok (Program [CallExpression (codes "2") []]).
Proof. split; [done|]. vm_compute. reflexivity. Qed.

(** C4, amended.  When [walk] meets an opening parenthesis and there is
    no next token, it throws.  Otherwise it takes the text of the next
    token as the name of the call and goes on to collect the parameters
    from the token after it, with no test of the kind of the next token:
    [walk] has the same outcome when that token is given any other kind,
    and every node that it returns is a [CallExpression] of that name. *)
Theorem walk_call_name (fuel : nat) (tokens : list token) (st : Parser.state)
    (t : token) :
  Parser.tok st = Some t → type t = tk_paren → value t = codes "(" →
  match tokens !! S (Parser.current st) with
  | None =>
      Parser.walk (S fuel) tokens st = Throw (TypeError_undefined "value")
  | Some next =>
      Parser.walk (S fuel) tokens st
      = Parser.params_loop fuel tokens (value next) []
          (Parser.State (S (S (Parser.current st)))
             (tokens !! S (S (Parser.current st))))
      ∧ (∀ kind,
           Parser.walk (S fuel)
             (<[S (Parser.current st) := Token kind (value next)]> tokens) st
           = Parser.walk (S fuel) tokens st)
      ∧ (∀ n st1, Parser.walk (S fuel) tokens st = Ok (n, st1) →
                  ∃ params, n = CallExpression (value next) params)
  end.
Proof.
  intros Ht Hparen Hopen.
  destruct (tokens !! S (Parser.current st)) as [next|] eqn:Hnext.
  2:{ simpl. by rewrite Ht, Hparen, decide_True, Hnext by done. }
  assert (Parser.walk (S fuel) tokens st
          = Parser.params_loop fuel tokens (value next) []
              (Parser.State (S (S (Parser.current st)))
                 (tokens !! S (S (Parser.current st))))) as Hwalk.
  { simpl. by rewrite Ht, Hparen, decide_True, Hnext by done. }
  split; [done|]. split.
  - intros kind. rewrite Hwalk. simpl. rewrite Ht, Hparen.
    rewrite decide_True by done.
    rewrite list_lookup_insert_eq by by eapply lookup_lt_Some.
    rewrite list_lookup_insert_ne by lia. cbn [value].
    apply ParserFacts.walk_reads_ahead. simpl. intros i Hi.
    apply list_lookup_insert_ne. lia.
  - intros n st1. rewrite Hwalk. apply ParserFacts.params_loop_name.
Qed.

(** The same for the tokens of [("two")]: the string token names the
    call, as a token of any other kind with that text would. *)
Lemma walk_call_name_witness :
  let tokens :=
    [Token tk_paren (codes "("); Token tk_string (codes "two");
     Token tk_paren (codes ")")] in
  let st := Parser.State 0 (Some (Token tk_paren (codes "("))) in
  Parser.walk 2 tokens st
  = Ok (CallExpression (codes "two") [],
        Parser.State 3 (Some (Token tk_paren (codes ")"))))
  ∧ (∀ kind,
       Parser.walk 2 (<[1 := Token kind (codes "two")]> tokens) st
       = Parser.walk 2 tokens st)
  ∧ (∀ n st1, Parser.walk 2 tokens st = Ok (n, st1) →
              ∃ params, n = CallExpression (codes "two") params).
Proof.
  exact (walk_call_name 1
           [Token tk_paren (codes "("); Token tk_string (codes "two");
            Token tk_paren (codes ")")]
           (Parser.State 0 (Some (Token tk_paren (codes "("))))
           (Token tk_paren (codes "(")) eq_refl eq_refl eq_refl).
Defined.

(** * Properties of the traverser *)

(** Induction on a tree, with the property for the children of a node. *)
Lemma node_ind' (P : node → Prop) :
  (∀ value, P (NumberLiteral value)) →
  (∀ value, P (StringLiteral value)) →
  (∀ name params, Forall P params → P (CallExpression name params)) →
  (∀ body, Forall P body → P (Program body)) →
  ∀ n, P n.
Proof.
  intros Hnum Hstr Hcall Hprog.
  fix IH 1. intros [value|value|name params|body].
  - apply Hnum.
  - apply Hstr.
  - apply Hcall. induction params as [|c params IHp]; constructor; auto.
  - apply Hprog. induction body as [|c body IHb]; constructor; auto.
Qed.

Module TraverserFacts.
Import Traverser.

Section facts.
Context {St : Type} (v : visitor St).

(** [traverseNode] in terms of [traverseArray], as in the source. *)
Lemma traverseNode_unfold (n : node) (p : path) (parent : option ref)
    (s : St) :
  traverseNode v n p parent s
  = (s1 ← call (v (node_type n) ≫= enter) (Ref p n) parent s;
     s2 ← match n with
          | NumberLiteral _ | StringLiteral _ => Ok s1
          | _ => traverseArray v (children n) (Ref p n) s1
          end;
     call (v (node_type n) ≫= exit) (Ref p n) parent s2).
Proof. by destruct n. Qed.

(** A call of [call] is the visit of [perform]. *)
Lemma call_enter (n : node) (p : path) (parent : option ref) (s : St) :
  call (v (node_type n) ≫= enter) (Ref p n) parent s
  = perform v [Enter (Ref p n) parent] s.
Proof.
  cbn [perform callback_of deref]. destruct (v (node_type n)) as [m|]; [|done].
  cbn [mbind option_bind]. destruct (enter m) as [f|]; [|done].
  cbn [call mbind option_bind]. by destruct (f _ _ s).
Qed.

Lemma call_exit (n : node) (p : path) (parent : option ref) (s : St) :
  call (v (node_type n) ≫= exit) (Ref p n) parent s
  = perform v [Exit (Ref p n) parent] s.
Proof.
  cbn [perform callback_of deref]. destruct (v (node_type n)) as [m|]; [|done].
  cbn [mbind option_bind]. destruct (exit m) as [f|]; [|done].
  cbn [call mbind option_bind]. by destruct (f _ _ s).
Qed.

Lemma perform_app (l1 l2 : list visit) (s : St) :
  perform v (l1 ++ l2) s = perform v l1 s ≫= perform v l2.
Proof.
  revert s. induction l1 as [|x l1 IH]; intros s; [done|].
  cbn [app perform]. destruct (callback_of v x) as [f|]; [|apply IH].
  destruct (f s); [apply IH|done|done].
Qed.

(** The loop over the children performs the visits of each child in
    turn. *)
Lemma forEach_visits (p : path) (parent : node) (l : list node) :
  Forall (λ c, ∀ q par s,
            traverseNode v c q par s = perform v (visits c q par) s) l →
  ∀ i s,
    forEach_from
      (λ i c, traverseNode v c (p ++ [i]) (Some (Ref p parent))) i l s
    = perform v
        (concat (mapi_from
                   (λ i c, visits c (p ++ [i]) (Some (Ref p parent))) i l))
        s.
Proof.
  induction 1 as [|c l Hc _ IH]; intros i s; simpl; [done|].
  rewrite perform_app, Hc.
  destruct (perform v _ s); simpl; [apply IH|done|done].
Qed.

Lemma traverseNode_visits (n : node) :
  ∀ p parent s,
    traverseNode v n p parent s = perform v (visits n p parent) s.
Proof.
  induction n as [value|value|name params IH|body IH] using node_ind';
    intros p parent s; rewrite traverseNode_unfold, call_enter;
    cbn [visits]; rewrite !perform_app;
    destruct (perform v [Enter _ parent] s) as [s1| |];
    cbn [mbind outcome_bind]; try done.
  - by rewrite call_exit.
  - by rewrite call_exit.
  - unfold traverseArray. cbn [children pos].
    rewrite (forEach_visits _ _ _ IH), perform_app.
    destruct (perform v _ s1) as [s2| |]; cbn [mbind outcome_bind];
      [|done|done].
    by rewrite call_exit.
  - unfold traverseArray. cbn [children pos].
    rewrite (forEach_visits _ _ _ IH), perform_app.
    destruct (perform v _ s1) as [s2| |]; cbn [mbind outcome_bind];
      [|done|done].
    by rewrite call_exit.
Qed.
End facts.
End TraverserFacts.

(** What a visitor that records the calls of its callbacks has seen at the
    end of a traversal. *)
Lemma traverser_records (ast : node) :
  traverser ast recorder [] = Ok (visits ast [] None).
Proof.
  unfold traverser, Traverser.run.
  rewrite TraverserFacts.traverseNode_visits.
  assert (∀ l log, perform recorder l log = Ok (log ++ l)) as H; [|apply H].
  induction l as [|[node parent|node parent] l IH]; intros log;
    cbn [perform callback_of recorder mbind option_bind Traverser.enter
         Traverser.exit].
  - by rewrite app_nil_r.
  - rewrite IH. by rewrite <- app_assoc.
  - rewrite IH. by rewrite <- app_assoc.
Qed.

Example traverser_records_example :
  traverser
    (Program [CallExpression (codes "f")
                [NumberLiteral (codes "1"); StringLiteral (codes "a")]])
    recorder []
  = let program :=
      Ref [] (Program [CallExpression (codes "f")
                         [NumberLiteral (codes "1");
                          StringLiteral (codes "a")]]) in
    let call :=
      Ref [0] (CallExpression (codes "f")
                 [NumberLiteral (codes "1"); StringLiteral (codes "a")]) in
    let one := Ref [0; 0] (NumberLiteral (codes "1")) in
    let a := Ref [0; 1] (StringLiteral (codes "a")) in
    Ok [Enter program None; Enter call (Some program);
        Enter one (Some call); Exit one (Some call);
        Enter a (Some call); Exit a (Some call);
        Exit call (Some program); Exit program None].
Proof. reflexivity. Qed.

(** C7.  For every tree and every visitor, [traverser] calls the callbacks
    of the visitor exactly for the depth-first list of visits of the tree,
    in order: the [enter] of a node, the visits of its children from left
    to right with the node as their parent, then the [exit] of the node;
    the root is visited first and last, with no parent.  So a visitor
    that records the calls of its callbacks has recorded that list when
    [traverser] returns. *)
Theorem traverser_depth_first {St : Type} (ast : node)
    (v : Traverser.visitor St) (s : St) :
  traverser ast v s = perform v (visits ast [] None) s
  ∧ traverser ast recorder [] = Ok (visits ast [] None)
  ∧ (∀ n p parent,
       visits n p parent
       = [Enter (Ref p n) parent]
         ++ concat (mapi_from
                      (λ i c, visits c (p ++ [i]) (Some (Ref p n)))
                      0 (children n))
         ++ [Exit (Ref p n) parent]).
Proof.
  split; [|split].
  - apply TraverserFacts.traverseNode_visits.
  - apply traverser_records.
  - intros n p parent. by destruct n.
Qed.

(** * Properties of the code generator *)

Module GeneratorFacts.
Import Generator.

(** A well-formed node below the root is rendered as a string. *)
Lemma well_formed_expression_string (n : parsedNode) :
  well_formed_expression n = true → ∃ text, codeGenerator n = Str text.
Proof.
  destruct n as [type value name expression arguments body callee]; simpl.
  destruct type as [[| | |]| |]; try done.
  - intros [text ->]%bool_decide_eq_true. by eexists.
  - intros [text ->]%bool_decide_eq_true. by eexists.
  - destruct callee; [|done]. by eexists.
  - intros [text ->]%bool_decide_eq_true. by eexists.
  - destruct expression; [|done]. by eexists.
Qed.

(** The strings of a list of well-formed nodes, as [map] and [join]
    obtain them. *)
Lemma well_formed_expressions_texts (l : list parsedNode) :
  forallb well_formed_expression l = true →
  ∃ texts,
    Forall2 (λ n text, codeGenerator n = Str text) l texts
    ∧ codeGenerator <$> l = Str <$> texts.
Proof.
  induction l as [|n l IH]; cbn [forallb].
  - exists []. by split; [constructor|].
  - intros [Hn Hl]%andb_true_iff.
    destruct (well_formed_expression_string n Hn) as [text Htext].
    destruct (IH Hl) as (texts & Hall & Heq).
    exists (text :: texts). split; [by constructor|].
    by rewrite !fmap_cons, Htext, Heq.
Qed.

Lemma join_strings_Str (separator : jsstring) (texts : list jsstring) :
  join separator (Str <$> texts) = join_strings separator texts.
Proof.
  unfold join. f_equal. induction texts as [|text texts IH]; [done|].
  by rewrite !fmap_cons, IH.
Qed.

(** [join(',')] puts a comma between every two texts. *)
Lemma join_strings_commas (texts : list jsstring) :
  join_strings (codes ",") texts = comma_joined texts.
Proof.
  destruct texts as [|text texts]; [done|]. cbn [comma_joined].
  revert text. induction texts as [|next texts IH]; intros text.
  - by rewrite app_nil_r.
  - rewrite fmap_cons. cbn [concat]. cbn [join_strings] in *.
    by rewrite IH, <- app_assoc.
Qed.

End GeneratorFacts.

(** C8.  For every well-formed node of the target tree, [codeGenerator]
    returns: for a [CallExpression], the name of its callee, an opening
    parenthesis, the strings generated for its arguments joined by commas,
    and a closing parenthesis; for an [ExpressionStatement], the string
    generated for its expression followed by a semicolon; for a
    [StringLiteral], its value between double quotes; for an [Identifier],
    its name; for a [NumberLiteral], its value; and for a [Program], the
    array of the strings generated for the entries of its body, one for
    each entry. *)
Theorem codeGenerator_renders (n : parsedNode) :
  well_formed n = true → renders n.
Proof.
  destruct n as [type value name expression arguments body callee].
  unfold well_formed, renders. cbn [p_type p_body].
  destruct type as [[| | |]| |].
  - cbn. intros [text ->]%bool_decide_eq_true. by eexists.
  - cbn. intros [text ->]%bool_decide_eq_true. by eexists.
  - cbn [well_formed_expression p_callee p_arguments].
    destruct callee as [[callee_name]|]; [|done].
    destruct arguments as [arguments|]; [|done].
    intros [[text Hname]%bool_decide_eq_true Hargs]%andb_true_iff.
    simpl in Hname. subst callee_name.
    destruct (GeneratorFacts.well_formed_expressions_texts _ Hargs)
      as (texts & Hall & Heq).
    exists (Identifier (Some text)), text, arguments, texts.
    repeat split; [done|]. cbn [codeGenerator]. fold codeGenerator.
    rewrite Heq, GeneratorFacts.join_strings_Str.
    by rewrite GeneratorFacts.join_strings_commas.
  - destruct body as [body|]; [|done]. intros Hbody.
    destruct (GeneratorFacts.well_formed_expressions_texts _ Hbody)
      as (texts & Hall & Heq).
    exists body, texts. repeat split; [done|]. cbn [codeGenerator].
    fold codeGenerator. by rewrite Heq.
  - cbn. intros [text ->]%bool_decide_eq_true. by eexists.
  - cbn [well_formed_expression p_expression].
    destruct expression as [expression|]; [|done]. intros Hexpr.
    destruct (GeneratorFacts.well_formed_expression_string _ Hexpr)
      as [text Htext].
    exists expression, text. repeat split; [done|]. cbn [codeGenerator].
    fold codeGenerator. by rewrite Htext.
Qed.

(** The same for the statement [statement_example] and the call in it:
    the text of the statement, with the comma between the arguments. *)
Lemma codeGenerator_renders_witness :
  codeGenerator statement_example
  = Str (codes "foo(" ++ [quote] ++ codes "bar" ++ [quote] ++ codes ",12);").
Proof.
  destruct (codeGenerator_renders statement_example eq_refl)
    as (expression & text & Hexpression & Htext & ->).
  injection Hexpression as <-.
  destruct (codeGenerator_renders call_of_example eq_refl)
    as (callee & name & arguments & texts & Hcallee & Hname & Harguments
        & Hall & Hcall).
  injection Hcallee as <-. injection Hname as <-.
  injection Harguments as <-.
  apply Forall2_cons_inv_l in Hall as (bar & texts1 & Hbar & Hall & ->).
  apply Forall2_cons_inv_l in Hall as (twelve & texts2 & Htwelve & Hall & ->).
  apply Forall2_nil_inv_l in Hall as ->.
  injection Hbar as <-. injection Htwelve as <-.
  rewrite Hcall in Htext. by injection Htext as <-.
Defined.

Example codeGenerator_statement_example :
  codeGenerator statement_example
  = Str (codes "foo(" ++ [quote] ++ codes "bar" ++ [quote] ++ codes ",12);").
Proof. reflexivity. Qed.

(** * Properties of the transformer *)

Module TransformerFacts.
Import Traverser Transformer.

Lemma path_ne_below (p : path) (i : nat) (s : path) : p ≠ p ++ i :: s.
Proof.
  intros H. apply (f_equal length) in H. rewrite length_app in H.
  simpl in H. lia.
Qed.

Lemma path_ne_sibling (p : path) (i j : nat) (s s' : path) :
  i ≠ j → p ++ i :: s ≠ p ++ j :: s'.
Proof. intros Hij H. apply app_inv_head in H. congruence. Qed.

Lemma path_snoc (p : path) (i : nat) (s : path) :
  (p ++ [i]) ++ s = p ++ i :: s.
Proof. by rewrite <- app_assoc. Qed.

Lemma literal_not_call (n : node) (s : path) name params :
  children n = [] → node_type n ≠ T_CallExpression →
  node_at n s ≠ Some (CallExpression name params).
Proof.
  intros Hc Ht. destruct s as [|i s]; simpl.
  - intros [= ->]. done.
  - by rewrite Hc.
Qed.

(** The traversal of a literal. *)
Lemma visits_well_literal (n : node) :
  children n = [] →
  node_type n = T_NumberLiteral ∨ node_type n = T_StringLiteral →
  visits_well n.
Proof.
  intros Hc Ht p parent a h Ha Hout Hpar.
  assert (traverseNode visitor n p (Some parent) h
          = push_context parent (the_node (Ref p n)) h
            ≫= λ s2, Ok s2) as ->.
  { destruct n; simpl in *; try done; destruct Ht; done. }
  unfold push_context. rewrite Ha. simpl. eexists. split; [done|].
  assert (∀ s, match node_at n s with
               | Some (CallExpression _ _) => False
               | _ => True
               end) as Hlit.
  { intros [|i s]; simpl; [by destruct n, Ht|by rewrite Hc]. }
  unfold visited; simpl. split; [|split; [|split; [|split]]].
  - rewrite lookup_alter_eq.
    by destruct n; simpl in *; try done; destruct Ht.
  - intros x Hx _. by rewrite lookup_alter_ne.
  - intros s name params E. specialize (Hlit s). by rewrite E in Hlit.
  - done.
  - intros s. specialize (Hlit s).
    by destruct (node_at n s) as [[]|].
Qed.

(** The loop over the children of the node [par] at [p], from the index
    [k] on. *)
Lemma visits_well_children (par : node) (p : path) (a : array)
    (rest : list node) :
  Forall visits_well rest →
  ∀ k h,
    context h !! p = Some a →
    (∀ i s, a ≠ arguments_at (p ++ i :: s)) →
    ∃ h',
      forEach_from
        (λ i c, traverseNode visitor c (p ++ [i]) (Some (Ref p par))) k rest h
      = Ok h'
      ∧ arrays h' !! a = (λ l, l ++ objects_of par p k rest) <$> arrays h !! a
      ∧ (∀ x, x ≠ a → (∀ i s, k ≤ i → x ≠ arguments_at (p ++ i :: s)) →
              arrays h' !! x = arrays h !! x)
      ∧ (∀ j c, rest !! j = Some c → filled (arrays h') c (p ++ [k + j]))
      ∧ (∀ q, (∀ i s, k ≤ i → q ≠ p ++ i :: s) →
              context h' !! q = context h !! q)
      ∧ (∀ i s, k ≤ i →
           context h' !! (p ++ i :: s)
           = match rest !! (i - k) ≫= λ c, node_at c s with
             | Some (CallExpression _ _) => Some (arguments_at (p ++ i :: s))
             | _ => context h !! (p ++ i :: s)
             end).
Proof.
  induction 1 as [|c rest Hc _ IH]; intros k h Ha Hout.
  { exists h. simpl. split; [done|]. split.
    { destruct (arrays h !! a); simpl; [by rewrite app_nil_r|done]. }
    repeat split; try done. }
  destruct (Hc (p ++ [k]) (Ref p par) a h Ha) as (h1 & Hrun & Hvis).
  { intros s. rewrite path_snoc. apply Hout. }
  { intros s. rewrite path_snoc. apply path_ne_below. }
  destruct Hvis as (Harr1 & Hframe1 & Hfill1 & Hcframe1 & Hmark1).
  destruct (IH (S k) h1) as
    (h' & Hrun' & Harr' & Hframe' & Hfill' & Hcframe' & Hmark'); [|done|].
  { rewrite Hcframe1; [done|]. intros s. rewrite path_snoc.
    apply path_ne_below. }
  exists h'. split; [simpl; by rewrite Hrun|].
  split; [|split; [|split; [|split]]].
  - rewrite Harr', Harr1. destruct (arrays h !! a); simpl; [|done].
    by rewrite <- app_assoc.
  - intros x Hx Hxout. rewrite Hframe', Hframe1; try done.
    + intros s. rewrite path_snoc. by apply Hxout.
    + intros i s Hi. apply Hxout. lia.
  - intros [|j] c' Hj; simpl in Hj.
    + injection Hj as ->. rewrite Nat.add_0_r. intros s name params E.
      rewrite Hframe'; [by apply Hfill1| |].
      * rewrite path_snoc. intros H. by apply (Hout k s).
      * intros i s' Hi. rewrite path_snoc. intros [= H].
        revert H. apply path_ne_sibling. lia.
    + rewrite Nat.add_succ_r. by apply (Hfill' j).
  - intros q Hq. rewrite Hcframe', Hcframe1; try done.
    + intros s. rewrite path_snoc. by apply Hq.
    + intros i s Hi. apply Hq. lia.
  - intros i s Hi. destruct (decide (i = k)) as [->|Hne].
    + rewrite Nat.sub_diag. simpl. rewrite Hcframe'.
      * specialize (Hmark1 s). by rewrite path_snoc in Hmark1.
      * intros i s' Hi'. apply path_ne_sibling. lia.
    + replace (i - k) with (S (i - S k)) by lia. simpl.
      rewrite Hmark' by lia.
      destruct (rest !! (i - S k) ≫= λ c0, node_at c0 s) as [[]|];
        try done; apply Hcframe1; intros s'; rewrite path_snoc;
        by apply path_ne_sibling.
Qed.

(** The traversal of a call whose parameters are traversed well. *)
Lemma visits_well_call (name : jsstring) (params : list node) :
  Forall visits_well params → visits_well (CallExpression name params).
Proof.
  intros Hparams p parent a h Ha Hout Hpar.
  set (n := CallExpression name params).
  set (h1 := Heap (<[p := arguments_at p]> (context h))
                  (<[arguments_at p := []]> (arrays h))).
  set (h2 := Heap (context h1)
                  (alter (λ l, l ++ [object_of (deref parent) n p]) a
                     (arrays h1))).
  assert (a ≠ arguments_at p) as Hap.
  { specialize (Hout []). by rewrite app_nil_r in Hout. }
  assert (pos parent ≠ p) as Hpp.
  { specialize (Hpar []). by rewrite app_nil_r in Hpar. }
  destruct (visits_well_children n p (arguments_at p) params Hparams 0 h2)
    as (h' & Hrun' & Harr' & Hframe' & Hfill' & Hcframe' & Hmark').
  { simpl. apply lookup_insert_eq. }
  { intros i s [= H]. revert H. apply path_ne_below. }
  exists h'. split.
  { unfold n at 1.
    cbn [traverseNode node_type visitor mbind option_bind enter exit call].
    unfold enter_call, push_context. cbn [pos deref context arrays].
    rewrite lookup_insert_ne by done. rewrite Ha.
    cbn [mbind outcome_bind].
    change (forEach_from
              (λ i child, traverseNode visitor child (p ++ [i])
                            (Some (Ref p n))) 0 params h2
            ≫= (λ s2, Ok s2) = Ok h').
    by rewrite Hrun'. }
  split; [|split; [|split; [|split]]].
  - rewrite Hframe'; [| done |].
    + simpl. rewrite lookup_alter_eq, lookup_insert_ne by done. done.
    + intros i s _. apply Hout.
  - intros x Hx Hxout. rewrite Hframe'.
    + simpl. rewrite lookup_alter_ne, lookup_insert_ne; try done.
      specialize (Hxout []). by rewrite app_nil_r in Hxout.
    + specialize (Hxout []). by rewrite app_nil_r in Hxout.
    + intros i s _. apply Hxout.
  - intros [|i s] name' params' E; simpl in E.
    + injection E as <- <-. rewrite app_nil_r, Harr'. simpl.
      rewrite lookup_alter_ne, lookup_insert_eq by done. done.
    + destruct (params !! i) as [c|] eqn:Ei; [|done]. simpl in E.
      specialize (Hfill' i c Ei s name' params' E).
      by rewrite path_snoc in Hfill'.
  - intros q Hq. rewrite Hcframe'.
    + simpl. rewrite lookup_insert_ne; [done|].
      specialize (Hq []). by rewrite app_nil_r in Hq.
    + intros i s _. apply Hq.
  - intros [|i s].
    + rewrite app_nil_r. simpl. rewrite Hcframe'.
      * simpl. apply lookup_insert_eq.
      * intros i s _. apply path_ne_below.
    + rewrite Hmark' by lia. rewrite Nat.sub_0_r. simpl.
      destruct (params !! i ≫= λ c, node_at c s) as [[]|]; try done;
        apply lookup_insert_ne, path_ne_below.
Qed.

(** The traversal of every literal and of every call. *)
Lemma visits_well_expression (n : node) :
  is_expression n = true → visits_well n.
Proof.
  induction n as [value|value|name params IH|body IH] using node_ind';
    intros Hn.
  - apply visits_well_literal; [done|by left].
  - apply visits_well_literal; [done|by right].
  - apply visits_well_call. simpl in Hn.
    apply Forall_forall. intros c Hc.
    eapply Forall_forall in IH; [apply IH|done].
    rewrite forallb_forall in Hn. apply Hn. by apply list_elem_of_In.
  - done.
Qed.

Lemma sequence_cons {A : Type} (m : outcome A) (l : list (outcome A)) :
  sequence (m :: l) = x ← m; xs ← sequence l; Ok (x :: xs).
Proof. done. Qed.

Lemma filled_child (arr : gmap array (list object)) (n c : node)
    (p : path) (i : nat) :
  children n !! i = Some c → filled arr n p → filled arr c (p ++ [i]).
Proof.
  intros Hc Hn s name params E. rewrite path_snoc. apply Hn.
  simpl. by rewrite Hc.
Qed.

(** The tree reached from the object of an argument of a call. *)
Lemma resolve_expression (arr : gmap array (list object)) (n : node) :
  is_expression n = true →
  ∀ p fuel par,
    node_type par = T_CallExpression → filled arr n p → height n ≤ fuel →
    resolve fuel arr (object_of par n p) = Ok (expression_of n p).
Proof.
  induction n as [value|value|name params IH|body IH] using node_ind';
    intros Hn p fuel par Hpar Hfill Hfuel.
  - destruct fuel; [simpl in Hfuel; lia|done].
  - destruct fuel; [simpl in Hfuel; lia|done].
  - destruct fuel as [|fuel]; [simpl in Hfuel; lia|].
    unfold object_of. rewrite decide_False by (by intros []).
    cbn [resolve expression_of].
    pose proof (Hfill [] name params eq_refl) as Harr.
    rewrite app_nil_r in Harr. rewrite Harr. cbn [default id].
    assert (∀ k,
              (∀ j c, params !! j = Some c → filled arr c (p ++ [k + j])) →
              sequence (resolve fuel arr
                          <$> objects_of (CallExpression name params) p k
                                params)
              = Ok (mapi_from (λ i c, expression_of c (p ++ [i])) k params))
      as Hargs.
    { simpl in Hn, Hfuel. apply le_S_n in Hfuel.
      generalize (CallExpression name params) (eq_refl : node_type (CallExpression name params) = T_CallExpression).
      clear Hfill Harr. intros par' Hpar'.
      induction IH as [|c params Hc _ IHparams]; intros k Hk; [done|].
      simpl in Hn, Hfuel. apply andb_true_iff in Hn as [Hn1 Hn2].
      cbn [objects_of mapi_from fmap list_fmap]. rewrite sequence_cons.
      rewrite Hc; [|done|done| |lia].
      2:{ specialize (Hk 0 c eq_refl). by rewrite Nat.add_0_r in Hk. }
      cbn [mbind outcome_bind].
      change (sequence (resolve fuel arr <$> objects_of par' p (S k) params)
              ≫= (λ xs, Ok (expression_of c (p ++ [k]) :: xs))
              = Ok (expression_of c (p ++ [k])
                    :: mapi_from (λ i c, expression_of c (p ++ [i])) (S k)
                         params)).
      rewrite IHparams; [done|done|lia|].
      intros j c' Hj. replace (S k + j) with (k + S j) by lia. by apply Hk. }
    rewrite Hargs; [done|]. intros j c Hj.
    by apply (filled_child arr (CallExpression name params)).
  - done.
Qed.

(** The tree reached from the object of an entry of the body. *)
Lemma resolve_statement (arr : gmap array (list object)) (n : node) :
  is_expression n = true →
  ∀ p fuel par,
    node_type par ≠ T_CallExpression → filled arr n p → height n ≤ fuel →
    resolve (S fuel) arr (object_of par n p) = Ok (statement_of n p).
Proof.
  intros Hn p fuel par Hpar Hfill Hfuel. destruct n; try done.
  unfold object_of. rewrite decide_True by done.
  cbn [resolve statement_of].
  change (New_ExpressionStatement
            <$> resolve fuel arr
                  (object_of (CallExpression [] []) (CallExpression name params)
                     p)
          = Ok (New_ExpressionStatement
                  (expression_of (CallExpression name params) p))).
  by rewrite (resolve_expression arr _ Hn p fuel).
Qed.

Lemma resolve_statements (arr : gmap array (list object)) (par : node)
    (p : path) (fuel : nat) (body : list node) :
  node_type par ≠ T_CallExpression →
  forallb is_expression body = true →
  foldr (λ c m, height c `max` m) 0 body ≤ fuel →
  ∀ k,
    (∀ j c, body !! j = Some c → filled arr c (p ++ [k + j])) →
    sequence (resolve (S fuel) arr <$> objects_of par p k body)
    = Ok (mapi_from (λ i c, statement_of c (p ++ [i])) k body).
Proof.
  intros Hpar. induction body as [|c body IH]; intros Hbody Hfuel k Hk;
    [done|].
  simpl in Hbody, Hfuel. apply andb_true_iff in Hbody as [Hc Hbody].
  cbn [objects_of mapi_from fmap list_fmap]. rewrite sequence_cons.
  rewrite resolve_statement; [|done|done| |lia].
  2:{ specialize (Hk 0 c eq_refl). by rewrite Nat.add_0_r in Hk. }
  cbn [mbind outcome_bind].
  change (sequence (resolve (S fuel) arr <$> objects_of par p (S k) body)
          ≫= (λ xs, Ok (statement_of c (p ++ [k]) :: xs))
          = Ok (statement_of c (p ++ [k])
                :: mapi_from (λ i c, statement_of c (p ++ [i])) (S k) body)).
  rewrite IH; [done|done|lia|].
  intros j c' Hj. replace (S k + j) with (k + S j) by lia. by apply Hk.
Qed.

(** The whole transformation of a valid tree: the tree that is returned,
    and the nodes of the source tree that have a [_context] afterwards. *)
Lemma run_valid (ast : node) :
  valid ast = true →
  ∃ h,
    Transformer.run ast = Ok (transformed ast, h)
    ∧ context h !! [] = Some newAst_body
    ∧ ∀ i s,
        context h !! (i :: s)
        = match node_at ast (i :: s) with
          | Some (CallExpression _ _) => Some (arguments_at (i :: s))
          | _ => None
          end.
Proof.
  destruct ast as [| | |body]; try done. intros Hvalid. simpl in Hvalid.
  destruct (visits_well_children (Program body) [] newAst_body body)
    with (k := 0) (h := initial)
    as (h & Hrun & Harr & Hframe & Hfill & Hcframe & Hmark); try done.
  { apply Forall_forall. intros c Hc. apply visits_well_expression.
    rewrite forallb_forall in Hvalid. apply Hvalid.
    by apply list_elem_of_In. }
  exists h. split; [|split].
  - unfold Transformer.run, traverser, Traverser.run.
    cbn [traverseNode node_type visitor mbind option_bind call].
    cbn [outcome_bind].
    rewrite Hrun. cbn [mbind outcome_bind]. rewrite Harr.
    cbn [initial arrays]. rewrite lookup_singleton_eq.
    cbn [fmap option_fmap option_map default id app height].
    rewrite (resolve_statements _ (Program body) []).
    + reflexivity.
    + done.
    + done.
    + lia.
    + exact Hfill.
  - rewrite Hcframe; [done|]. by intros i [|] _.
  - intros i s. specialize (Hmark i s (Nat.le_0_l i)).
    rewrite Nat.sub_0_r in Hmark. cbn [app] in Hmark. rewrite Hmark.
    cbn [node_at children].
    destruct (body !! i ≫= λ c, node_at c s) as [[]|]; try done;
      by apply lookup_singleton_ne.
Qed.

Lemma mapi_from_lookup {A B : Type} (f : nat → A → B) (l : list A) (k j : nat) :
  mapi_from f k l !! j = f (k + j) <$> l !! j.
Proof.
  revert k j. induction l as [|x l IH]; intros k [|j]; simpl; try done.
  - by rewrite Nat.add_0_r.
  - rewrite IH. by replace (S k + j) with (k + S j) by lia.
Qed.

Lemma node_at_app (n : node) (s s' : path) :
  node_at n (s ++ s') = node_at n s ≫= λ m, node_at m s'.
Proof.
  revert n. induction s as [|i s IH]; intros n; simpl; [done|].
  destruct (children n !! i); simpl; [apply IH|done].
Qed.

Lemma is_expression_child (n c : node) (i : nat) :
  is_expression n = true → children n !! i = Some c →
  is_expression c = true ∧ node_type n = T_CallExpression.
Proof.
  destruct n as [| |name params|]; try done. simpl. intros Hn Hc.
  split; [|done]. rewrite forallb_forall in Hn. apply Hn.
  apply list_elem_of_In. by eapply list_elem_of_lookup_2.
Qed.

Lemma is_expression_node_at (n m : node) (s : path) :
  is_expression n = true → node_at n s = Some m → is_expression m = true.
Proof.
  revert n. induction s as [|i s IH]; intros n Hn; simpl.
  - by intros [= <-].
  - destruct (children n !! i) as [c|] eqn:Hc; [|done]. simpl.
    apply IH. by eapply is_expression_child.
Qed.

(** The entry of the target of an expression that is reached by a
    position of the expression. *)
Lemma entry_at_expression (n m : node) (p s : path) :
  is_expression n = true → node_at n s = Some m →
  entry_at (expression_of n p) s = Some (expression_of m (p ++ s)).
Proof.
  revert n p. induction s as [|i s IH]; intros n p Hn; simpl.
  - intros [= <-]. by rewrite app_nil_r.
  - destruct (children n !! i) as [c|] eqn:Hc; [|done]. simpl. intros Hm.
    destruct (is_expression_child n c i Hn Hc) as [Hc' Hcall].
    destruct n as [| |name params|]; try done. simpl in *.
    rewrite mapi_from_lookup, Hc. simpl.
    rewrite (IH c (p ++ [i]) Hc' Hm). by rewrite path_snoc.
Qed.

Lemma entries_statement (n : node) (p : path) :
  entries (statement_of n p) = entries (expression_of n p).
Proof. by destruct n. Qed.

Lemma calls_expression (n : node) :
  is_expression n = true → ∀ p, target_calls (expression_of n p) = calls n.
Proof.
  induction n as [value|value|name params IH|body IH] using node_ind';
    intros Hn p; try done.
  cbn [expression_of target_calls calls is_expression] in *. f_equal.
  assert (∀ k,
            foldr (λ c m, target_calls c + m) 0
              (mapi_from (λ i c, expression_of c (p ++ [i])) k params)
            = foldr (λ c m, calls c + m) 0 params) as H; [|apply H].
  revert Hn. induction IH as [|c params Hc _ IHparams]; intros Hn k; [done|].
  cbn [mapi_from foldr forallb] in *.
  apply andb_true_iff in Hn as [Hn1 Hn2]. by rewrite Hc, IHparams.
Qed.

Lemma calls_statement (n : node) (p : path) :
  is_expression n = true → target_calls (statement_of n p) = calls n.
Proof.
  intros Hn. rewrite <- (calls_expression n Hn p). by destruct n.
Qed.

Lemma shared_expression (n : node) :
  is_expression n = true → ∀ p, shared (expression_of n p) = literals n p.
Proof.
  induction n as [value|value|name params IH|body IH] using node_ind';
    intros Hn p; try done.
  cbn [expression_of shared literals is_expression] in *. f_equal.
  assert (∀ k,
            shared <$> mapi_from (λ i c, expression_of c (p ++ [i])) k params
            = mapi_from (λ i c, literals c (p ++ [i])) k params) as H;
    [|apply H].
  revert Hn. induction IH as [|c params Hc _ IHparams]; intros Hn k; [done|].
  cbn [mapi_from forallb] in *. rewrite fmap_cons.
  apply andb_true_iff in Hn as [Hn1 Hn2]. by rewrite Hc, IHparams.
Qed.

Lemma shared_statement (n : node) (p : path) :
  is_expression n = true → shared (statement_of n p) = literals n p.
Proof.
  intros Hn. rewrite <- (shared_expression n Hn p). by destruct n.
Qed.

Lemma transformer_valid (ast : node) :
  valid ast = true → transformer ast = Ok (transformed ast).
Proof.
  intros Hvalid. destruct (run_valid ast Hvalid) as (h & Hrun & _).
  unfold transformer. by rewrite Hrun.
Qed.
End TransformerFacts.

(** C5.  For every valid source tree, [transformer] returns a tree in
    which, for every call of the source tree found at index [i] of a node
    [parent]: if [parent] is a [CallExpression], the entry at index [i] of
    the arguments of the target of [parent] is the bare new
    [CallExpression] of that call; otherwise ([parent] is the [Program])
    the entry at index [i] of the body is an [ExpressionStatement] that
    wraps it.  Only the kind of [parent] decides. *)
Theorem transformer_wraps_by_parent_kind (ast : node) :
  valid ast = true →
  ∃ t,
    transformer ast = Ok t
    ∧ ∀ p i parent name params,
        node_at ast p = Some parent →
        node_at ast (p ++ [i]) = Some (CallExpression name params) →
        ∃ arguments,
          entry_at t (p ++ [i])
          = Some (if decide (node_type parent = T_CallExpression)
                  then New_CallExpression (Identifier (Some name)) arguments
                  else New_ExpressionStatement
                         (New_CallExpression (Identifier (Some name))
                            arguments)).
Proof.
  intros Hvalid. exists (transformed ast).
  split; [by apply TransformerFacts.transformer_valid|].
  destruct ast as [| | |body]; try done. simpl in Hvalid.
  intros [|j s] i parent name params Hparent Hcall.
  - simpl in Hparent. injection Hparent as <-.
    simpl in Hcall. destruct (body !! i) as [c|] eqn:Hc; [|done].
    simpl in Hcall. injection Hcall as ->. eexists. simpl.
    rewrite TransformerFacts.mapi_from_lookup, Hc. done.
  - simpl in Hparent, Hcall.
    destruct (body !! j) as [c|] eqn:Hc; [|done]. simpl in Hparent, Hcall.
    assert (is_expression c = true) as Hexpr.
    { rewrite forallb_forall in Hvalid. apply Hvalid.
      apply list_elem_of_In. by eapply list_elem_of_lookup_2. }
    pose proof (TransformerFacts.is_expression_node_at _ _ _ Hexpr Hparent)
      as Hpexpr.
    pose proof Hcall as Hcall'.
    rewrite TransformerFacts.node_at_app, Hparent in Hcall'.
    simpl in Hcall'.
    destruct (children parent !! i) as [c'|] eqn:Hc'; [|done].
    destruct (TransformerFacts.is_expression_child _ _ _ Hpexpr Hc')
      as [_ Hkind].
    eexists. rewrite decide_True by done.
    cbn [entry_at app transformed entries children].
    rewrite TransformerFacts.mapi_from_lookup, Hc. cbn [fmap option_fmap option_map mbind option_bind].
    transitivity (entry_at (expression_of c [j]) (s ++ [i])).
    { destruct s; simpl; by rewrite TransformerFacts.entries_statement. }
    rewrite (TransformerFacts.entry_at_expression _ _ _ _ Hexpr Hcall).
    done.
Qed.

(** The same for the tree of [(add 2 (subtract 4 2))]: [add] is wrapped,
    [subtract] is not. *)
Lemma transformer_wraps_by_parent_kind_witness :
  ∃ t,
    transformer
      (Program [CallExpression (codes "add")
                  [NumberLiteral (codes "2");
                   CallExpression (codes "subtract")
                     [NumberLiteral (codes "4"); NumberLiteral (codes "2")]]])
    = Ok t
    ∧ (∃ arguments,
         entry_at t [0]
         = Some (New_ExpressionStatement
                   (New_CallExpression (Identifier (Some (codes "add")))
                      arguments)))
    ∧ (∃ arguments,
         entry_at t [0; 1]
         = Some (New_CallExpression (Identifier (Some (codes "subtract")))
                   arguments)).
Proof.
  destruct (transformer_wraps_by_parent_kind
              (Program [CallExpression (codes "add")
                          [NumberLiteral (codes "2");
                           CallExpression (codes "subtract")
                             [NumberLiteral (codes "4");
                              NumberLiteral (codes "2")]]]) eq_refl)
    as (t & Hrun & Hentries).
  exists t. split; [exact Hrun|]. split.
  - exact (Hentries [] 0 _ _ _ eq_refl eq_refl).
  - exact (Hentries [0] 1 _ _ _ eq_refl eq_refl).
Defined.

(** C6.  For every valid source tree, the tree that [transformer] returns
    has as many [CallExpression] nodes as the source tree. *)
Theorem transformer_preserves_calls (ast : node) :
  valid ast = true →
  ∃ t, transformer ast = Ok t ∧ target_calls t = calls ast.
Proof.
  intros Hvalid. exists (transformed ast).
  split; [by apply TransformerFacts.transformer_valid|].
  destruct ast as [| | |body]; try done.
  cbn [valid transformed target_calls calls children] in *.
  assert (∀ k,
            foldr (λ c m, target_calls c + m) 0
              (mapi_from (λ i c, statement_of c [i]) k body)
            = foldr (λ c m, calls c + m) 0 body) as H; [|apply H].
  induction body as [|c body IH]; intros k; [done|].
  cbn [mapi_from foldr forallb] in *.
  apply andb_true_iff in Hvalid as [Hc Hbody].
  by rewrite TransformerFacts.calls_statement, IH.
Qed.

(** The same for the tree of [(add 2 (subtract 4 2))], with its two calls. *)
Lemma transformer_preserves_calls_witness :
  ∃ t,
    transformer
      (Program [CallExpression (codes "add")
                  [NumberLiteral (codes "2");
                   CallExpression (codes "subtract")
                     [NumberLiteral (codes "4"); NumberLiteral (codes "2")]]])
    = Ok t
    ∧ target_calls t = 2.
Proof.
  exact (transformer_preserves_calls
           (Program [CallExpression (codes "add")
                       [NumberLiteral (codes "2");
                        CallExpression (codes "subtract")
                          [NumberLiteral (codes "4");
                           NumberLiteral (codes "2")]]]) eq_refl).
Defined.

(** C9, as the specification states it, fails: the literal of the source
    tree is itself an entry of the target tree, and the root and the call
    of the source tree have received a property [_context]. *)
Lemma transformer_shares_literal_example :
  ∃ t h,
    Transformer.run
      (Program [CallExpression (codes "f") [NumberLiteral (codes "1")]])
    = Ok (t, h)
    ∧ t = New_Program
            [New_ExpressionStatement
               (New_CallExpression (Identifier (Some (codes "f")))
                  [Source_node (Ref [0; 0] (NumberLiteral (codes "1")))])]
    ∧ Transformer.context h !! [] = Some Transformer.newAst_body
    ∧ Transformer.context h !! [0] = Some (Transformer.arguments_at [0]).
Proof.
  destruct (TransformerFacts.run_valid
              (Program [CallExpression (codes "f")
                          [NumberLiteral (codes "1")]]) eq_refl)
    as (h & Hrun & Hroot & Hbelow).
  exists (transformed
            (Program [CallExpression (codes "f") [NumberLiteral (codes "1")]])),
         h.
  split; [exact Hrun|]. split; [reflexivity|]. split; [exact Hroot|].
  apply (Hbelow 0 []).
Qed.

(** C9, amended.  For every valid source tree, the tree that
    [transformer] returns consists of new [Program],
    [ExpressionStatement], [CallExpression] and [Identifier] nodes and of
    the literal nodes of the source tree themselves, shared and in their
    order; and the transformation leaves a property [_context] on the root
    and on every call of the source tree, and on no other node. *)
Theorem transformer_shares_literals (ast : node) :
  valid ast = true →
  ∃ t h,
    Transformer.run ast = Ok (t, h)
    ∧ shared t = literals ast []
    ∧ ∀ q,
        Transformer.context h !! q
        = match node_at ast q with
          | Some (Program _) => Some Transformer.newAst_body
          | Some (CallExpression _ _) => Some (Transformer.arguments_at q)
          | _ => None
          end.
Proof.
  intros Hvalid.
  destruct (TransformerFacts.run_valid ast Hvalid)
    as (h & Hrun & Hroot & Hbelow).
  exists (transformed ast), h. split; [exact Hrun|].
  destruct ast as [| | |body]; try done. split.
  - cbn [valid transformed shared literals children] in *. f_equal.
    assert (∀ k,
              shared <$> mapi_from (λ i c, statement_of c [i]) k body
              = mapi_from (λ i c, literals c ([] ++ [i])) k body) as H;
      [|apply H].
    clear h Hrun Hroot Hbelow.
    induction body as [|c body IH]; intros k; [done|].
    cbn [mapi_from forallb] in *. rewrite fmap_cons.
    apply andb_true_iff in Hvalid as [Hc Hbody].
    by rewrite TransformerFacts.shared_statement, IH.
  - intros [|i s]; [exact Hroot|]. rewrite Hbelow.
    destruct (node_at (Program body) (i :: s)) as [m|] eqn:Hm; [|done].
    destruct m; try done. exfalso. simpl in Hm, Hvalid.
    destruct (body !! i) as [c|] eqn:Hc; [|done]. simpl in Hm.
    assert (is_expression c = true) as Hexpr.
    { rewrite forallb_forall in Hvalid. apply Hvalid.
      apply list_elem_of_In. by eapply list_elem_of_lookup_2. }
    by pose proof (TransformerFacts.is_expression_node_at _ _ _ Hexpr Hm).
Qed.

(** The same for the tree of [(f "a")]. *)
Lemma transformer_shares_literals_witness :
  ∃ t h,
    Transformer.run
      (Program [CallExpression (codes "f") [StringLiteral (codes "a")]])
    = Ok (t, h)
    ∧ shared t = [Ref [0; 0] (StringLiteral (codes "a"))]
    ∧ ∀ q,
        Transformer.context h !! q
        = match node_at
                  (Program [CallExpression (codes "f")
                              [StringLiteral (codes "a")]]) q with
          | Some (Program _) => Some Transformer.newAst_body
          | Some (CallExpression _ _) => Some (Transformer.arguments_at q)
          | _ => None
          end.
Proof.
  exact (transformer_shares_literals
           (Program [CallExpression (codes "f") [StringLiteral (codes "a")]])
           eq_refl).
Defined.

(** C2.  With enough fuel for the loops of the tokenizer, [compiler]
    returns for ["(add 2 (subtract 4 2))"] the array of the one string
    ["add(2,subtract(4,2));"]. *)
Theorem compiler_add_subtract (fuel : nat) :
  23 ≤ fuel →
  compiler fuel (codes "(add 2 (subtract 4 2))")
  = Ok (Arr [Str (codes "add(2,subtract(4,2));")]).
Proof.
  intros Hfuel. unfold compiler.
  rewrite (TokenizerFacts.tokenizer_mono 23 fuel _
             [Token tk_paren (codes "("); Token tk_name (codes "add");
              Token tk_number (codes "2"); Token tk_paren (codes "(");
              Token tk_name (codes "subtract"); Token tk_number (codes "4");
              Token tk_number (codes "2"); Token tk_paren (codes ")");
              Token tk_paren (codes ")")]); [|by vm_compute|done].
  by vm_compute.
Qed.

(** The same with 100 units of fuel. *)
Lemma compiler_add_subtract_witness :
  compiler 100 (codes "(add 2 (subtract 4 2))")
  = Ok (Arr [Str (codes "add(2,subtract(4,2));")]).
Proof. apply (compiler_add_subtract 100). lia. Defined.

(** * Further properties of the tokenizer *)

Module TokenizerScans.
Import Tokenizer.

(** The part of [input] from [current] on, of length [k]. *)
Lemma lookup_middle_app (pre run post : jsstring) :
  (pre ++ run ++ post) !! length pre = head (run ++ post).
Proof.
  rewrite lookup_app_r by lia. rewrite Nat.sub_diag.
  by destruct (run ++ post).
Qed.

Lemma number_loop_scan (run : jsstring) :
  ∀ pre post fuel numberValue,
    forallb is_digit run = true →
    numberReg (head post) = false →
    length run < fuel →
    number_loop fuel (pre ++ run ++ post) (length pre)
      ((pre ++ run ++ post) !! length pre) numberValue
    = Ok (length pre + length run, numberValue ++ run).
Proof.
  induction run as [|c run IH]; intros pre post fuel v Hrun Hstop Hfuel.
  - destruct fuel; [simpl in Hfuel; lia|]. cbn [number_loop].
    rewrite lookup_middle_app. cbn [app]. rewrite Hstop.
    by rewrite Nat.add_0_r, app_nil_r.
  - destruct fuel as [|fuel]; [simpl in Hfuel; lia|]. simpl in Hrun, Hfuel.
    apply andb_true_iff in Hrun as [Hc Hrun].
    cbn [number_loop]. rewrite lookup_middle_app. cbn [head app numberReg from_option].
    rewrite Hc. cbn [append mbind outcome_bind].
    replace (pre ++ c :: run ++ post) with ((pre ++ [c]) ++ run ++ post)
      by (by rewrite <- app_assoc).
    replace (S (length pre)) with (length (pre ++ [c]))
      by (rewrite length_app; simpl; lia).
    rewrite IH by (done || lia).
    rewrite length_app, <- (app_assoc v). simpl. do 2 f_equal. lia.
Qed.

Lemma letter_loop_scan (run : jsstring) :
  ∀ pre post fuel letterValue,
    forallb is_letter run = true →
    letterReg (head post) = false →
    length run < fuel →
    letter_loop fuel (pre ++ run ++ post) (length pre)
      ((pre ++ run ++ post) !! length pre) letterValue
    = Ok (length pre + length run, letterValue ++ run).
Proof.
  induction run as [|c run IH]; intros pre post fuel v Hrun Hstop Hfuel.
  - destruct fuel; [simpl in Hfuel; lia|]. cbn [letter_loop].
    rewrite lookup_middle_app. cbn [app]. rewrite Hstop.
    by rewrite Nat.add_0_r, app_nil_r.
  - destruct fuel as [|fuel]; [simpl in Hfuel; lia|]. simpl in Hrun, Hfuel.
    apply andb_true_iff in Hrun as [Hc Hrun].
    cbn [letter_loop]. rewrite lookup_middle_app.
    cbn [head app letterReg from_option]. rewrite Hc.
    cbn [append mbind outcome_bind].
    replace (pre ++ c :: run ++ post) with ((pre ++ [c]) ++ run ++ post)
      by (by rewrite <- app_assoc).
    replace (S (length pre)) with (length (pre ++ [c]))
      by (rewrite length_app; simpl; lia).
    rewrite IH by (done || lia).
    rewrite length_app, <- (app_assoc v). simpl. do 2 f_equal. lia.
Qed.

Lemma string_loop_scan (run : jsstring) :
  ∀ pre post fuel stringValue,
    forallb (λ c, negb (bool_decide (c = quote))) run = true →
    length run < fuel →
    string_loop fuel (pre ++ run ++ quote :: post) (length pre)
      ((pre ++ run ++ quote :: post) !! length pre) stringValue
    = Ok (length pre + length run, stringValue ++ run).
Proof.
  induction run as [|c run IH]; intros pre post fuel v Hrun Hfuel.
  - destruct fuel; [simpl in Hfuel; lia|]. cbn [string_loop].
    rewrite lookup_middle_app. cbn [app head].
    rewrite decide_True by done. by rewrite Nat.add_0_r, app_nil_r.
  - destruct fuel as [|fuel]; [simpl in Hfuel; lia|]. simpl in Hrun, Hfuel.
    apply andb_true_iff in Hrun as [Hc Hrun].
    apply negb_true_iff, bool_decide_eq_false in Hc.
    cbn [string_loop]. rewrite lookup_middle_app. cbn [head app].
    rewrite decide_False by congruence. cbn [append mbind outcome_bind].
    replace (pre ++ c :: run ++ quote :: post)
      with ((pre ++ [c]) ++ run ++ quote :: post)
      by (by rewrite <- app_assoc).
    replace (S (length pre)) with (length (pre ++ [c]))
      by (rewrite length_app; simpl; lia).
    rewrite IH by (done || lia).
    rewrite length_app, <- (app_assoc v). simpl. do 2 f_equal. lia.
Qed.

Lemma digit_not_letter (c : N) : is_digit c = true → is_letter c = false.
Proof.
  unfold is_digit, is_letter. rewrite andb_true_iff, !N.leb_le.
  intros [H1 H2]. apply orb_false_iff. split; apply andb_false_iff.
  - left. apply N.leb_gt. lia.
  - left. apply N.leb_gt. lia.
Qed.

Lemma space_not_digit : numberReg (Some 32%N) = false.
Proof. done. Qed.

(** Beyond the end of the input the scan of a name and the scan of a
    string never return. *)
Lemma letter_loop_beyond fuel input current letterValue r :
  length input ≤ current →
  letter_loop fuel input current None letterValue ≠ Ok r.
Proof.
  revert current letterValue.
  induction fuel as [|fuel IH]; intros current v Hlen; [done|].
  cbn [letter_loop letterReg from_option].
  rewrite (lookup_ge_None_2 input current) by lia.
  rewrite (lookup_ge_None_2 input (S current)) by lia.
  destruct (append v None); cbn [mbind outcome_bind]; [|done|done].
  apply IH. lia.
Qed.

Lemma string_loop_beyond fuel input current stringValue r :
  length input ≤ current →
  string_loop fuel input current None stringValue ≠ Ok r.
Proof.
  revert current stringValue.
  induction fuel as [|fuel IH]; intros current v Hlen; [done|].
  cbn [string_loop]. rewrite decide_False by done.
  rewrite (lookup_ge_None_2 input (S current)) by lia.
  destruct (append v None); cbn [mbind outcome_bind]; [|done|done].
  apply IH. lia.
Qed.

Lemma scanned_nil input current v : scanned input current current v v [].
Proof.
  unfold scanned. by rewrite app_nil_r, Nat.add_0_r.
Qed.

Lemma scanned_cons input current current' c v v' run :
  input !! current = Some c →
  scanned input (S current) current' (v ++ [c]) v' run →
  scanned input current current' v v' (c :: run).
Proof.
  intros Hc (-> & -> & Hrun). unfold scanned.
  rewrite <- app_assoc. split; [done|]. split; [simpl; lia|].
  rewrite (drop_S _ _ _ Hc). simpl. by rewrite Hrun.
Qed.

Lemma number_loop_inv fuel input current numberValue :
  match number_loop fuel input current (input !! current) numberValue with
  | Ok (current', v') =>
      ∃ run, scanned input current current' numberValue v' run
             ∧ forallb is_digit run = true
             ∧ numberReg (input !! current') = false
  | Throw _ => False
  | OutOfFuel => True
  end.
Proof.
  revert current numberValue.
  induction fuel as [|fuel IH]; intros current v; [done|].
  cbn [number_loop]. destruct (numberReg (input !! current)) eqn:E.
  - destruct (input !! current) as [c|] eqn:Hc; [|done]. simpl in E.
    cbn [append mbind outcome_bind].
    specialize (IH (S current) (v ++ [c])).
    destruct (number_loop _ _ _ _ _) as [[current' v']| |]; try done.
    destruct IH as (run & Hscan & Hrun & Hstop). exists (c :: run).
    split; [by apply scanned_cons|]. split; [|done]. simpl. by rewrite E.
  - exists []. split; [apply scanned_nil|done].
Qed.

Lemma letter_loop_inv fuel input current letterValue :
  match letter_loop fuel input current (input !! current) letterValue with
  | Ok (current', v') =>
      ∃ run, scanned input current current' letterValue v' run
             ∧ forallb is_letter run = true
             ∧ letterReg (input !! current') = false
  | Throw _ => True
  | OutOfFuel => True
  end.
Proof.
  revert current letterValue.
  induction fuel as [|fuel IH]; intros current v; [done|].
  destruct (input !! current) as [c|] eqn:Hc.
  2:{ destruct (letter_loop (S fuel) input current None v) as [r| |] eqn:E;
        [|done|done].
      exfalso. revert E. apply letter_loop_beyond. by apply lookup_ge_None. }
  cbn [letter_loop]. destruct (letterReg (Some c)) eqn:E.
  - simpl in E. rewrite Hc. cbn [append mbind outcome_bind].
    specialize (IH (S current) (v ++ [c])).
    destruct (letter_loop _ _ _ _ _) as [[current' v']| |]; try done.
    destruct IH as (run & Hscan & Hrun & Hstop). exists (c :: run).
    split; [by apply scanned_cons|]. split; [|done]. simpl. by rewrite E.
  - exists []. split; [apply scanned_nil|]. by rewrite Hc.
Qed.

Lemma string_loop_inv fuel input current stringValue :
  match string_loop fuel input current (input !! current) stringValue with
  | Ok (current', v') =>
      ∃ run, scanned input current current' stringValue v' run
             ∧ forallb (λ c, negb (bool_decide (c = quote))) run = true
             ∧ input !! current' = Some quote
  | Throw _ => True
  | OutOfFuel => True
  end.
Proof.
  revert current stringValue.
  induction fuel as [|fuel IH]; intros current v; [done|].
  destruct (input !! current) as [c|] eqn:Hc.
  2:{ destruct (string_loop (S fuel) input current None v) as [r| |] eqn:E;
        [|done|done].
      exfalso. revert E. apply string_loop_beyond. by apply lookup_ge_None. }
  cbn [string_loop]. destruct (decide (Some c = Some quote)) as [E|E].
  - exists []. split; [apply scanned_nil|]. by rewrite Hc.
  - cbn [append mbind outcome_bind].
    specialize (IH (S current) (v ++ [c])).
    destruct (string_loop _ _ _ _ _) as [[current' v']| |]; try done.
    destruct IH as (run & Hscan & Hrun & Hstop). exists (c :: run).
    split; [by apply scanned_cons|]. split; [|done]. simpl.
    rewrite Hrun, andb_true_r. apply negb_true_iff, bool_decide_eq_false.
    congruence.
Qed.

(** The last character that a non-empty scan has read. *)
Lemma scanned_last input current current' v v' run :
  scanned input current current' v v' run → run ≠ [] →
  current < current' ∧ input !! (current' - 1) = last run.
Proof.
  intros (-> & -> & Hrun) Hne.
  assert (0 < length run) by (destruct run; [done|simpl; lia]).
  split; [lia|]. rewrite last_lookup.
  assert (run !! pred (length run)
          = input !! (current + pred (length run))) as ->.
  { transitivity
      (take (length run) (drop current input) !! pred (length run));
      [by rewrite Hrun|].
    rewrite lookup_take_lt by lia. apply lookup_drop. }
  f_equal. lia.
Qed.
End TokenizerScans.

Module TokenizerMore.
Import Tokenizer TokenizerScans.

Lemma forallb_last {A : Type} (P : A → bool) (l : list A) (x : A) :
  forallb P l = true → last l = Some x → P x = true.
Proof.
  rewrite forallb_forall. intros H Hlast. apply H.
  apply list_elem_of_In. rewrite last_lookup in Hlast.
  by eapply list_elem_of_lookup_2.
Qed.

(** On an input that ends with a letter the main loop never reaches the
    end. *)
Lemma main_loop_last_letter fuel input c :
  last input = Some c → is_letter c = true →
  ∀ current tokens console r,
    current < length input →
    main_loop fuel input current tokens console ≠ Ok r.
Proof.
  intros Hlast Hc.
  assert (∀ i x, input !! i = Some x → is_letter x = false →
                 S i < length input) as Hnext.
  { intros i x Hi Hx. pose proof (lookup_lt_Some _ _ _ Hi).
    destruct (decide (i = pred (length input))) as [->|]; [|lia].
    rewrite last_lookup in Hlast. congruence. }
  induction fuel as [|fuel IH]; intros current tokens console r Hlt; [done|].
  cbn [main_loop]. rewrite decide_True by done.
  destruct (lookup_lt_is_Some_2 _ _ Hlt) as [x Hx]. cbn zeta.
  destruct (numberReg (input !! current)) eqn:Enum.
  { pose proof (number_loop_inv fuel input current []) as H.
    destruct (number_loop _ _ _ _ _) as [[current' v]| |];
      cbn [mbind outcome_bind]; [|done|done].
    destruct H as (run & Hscan & Hrun & Hstop). apply IH.
    assert (run ≠ []) as Hne.
    { intros ->. destruct Hscan as (_ & -> & _).
      rewrite Nat.add_0_r in Hstop. congruence. }
    destruct (scanned_last _ _ _ _ _ _ Hscan Hne) as [Hlt' Hl].
    destruct (last run) as [d|] eqn:Hd.
    2:{ by apply last_None in Hd. }
    pose proof (forallb_last _ _ _ Hrun Hd) as Hdigit.
    apply digit_not_letter in Hdigit.
    pose proof (Hnext _ _ Hl Hdigit). lia. }
  destruct (letterReg (input !! current)) eqn:Elet.
  { pose proof (letter_loop_inv fuel input current []) as H.
    destruct (letter_loop _ _ _ _ _) as [[current' v]| |];
      cbn [mbind outcome_bind]; [|done|done].
    destruct H as (run & Hscan & Hrun & Hstop). apply IH.
    destruct (input !! current') eqn:E; [|done].
    by eapply lookup_lt_Some. }
  rewrite Hx in Elet. simpl in Elet.
  destruct (parenReg (input !! current)); [by apply IH, (Hnext _ x)|].
  destruct (whiteSpaceReg (input !! current)); [by apply IH, (Hnext _ x)|].
  destruct (decide (input !! current = Some quote)); [|by apply IH].
  pose proof (string_loop_inv fuel input (S current) []) as H.
  destruct (string_loop _ _ _ _ _) as [[current' v]| |];
    cbn [mbind outcome_bind]; [|done|done].
  destruct H as (run & Hscan & Hrun & Hstop). apply IH.
  by apply (Hnext _ quote).
Qed.

(** The tokens collected by the main loop are well formed, and a run
    that returns has logged nothing. *)
Lemma main_loop_tokens fuel input :
  ∀ current tokens console tokens' console',
    forallb token_ok tokens = true →
    main_loop fuel input current tokens console = Ok (tokens', console') →
    forallb token_ok tokens' = true ∧ console' = console.
Proof.
  induction fuel as [|fuel IH];
    intros current tokens console tokens' console' Hok; [done|].
  cbn [main_loop].
  destruct (decide (current < length input)) as [Hlt|];
    [|by intros [= <- <-]].
  assert (∀ t, token_ok t = true →
               forallb token_ok (tokens ++ [t]) = true) as Hpush.
  { intros t Ht. rewrite forallb_app, Hok. simpl. by rewrite Ht. }
  destruct (numberReg (input !! current)) eqn:Enum.
  { pose proof (number_loop_inv fuel input current []) as H.
    destruct (number_loop _ _ _ _ _) as [[current' v]| |]; try done.
    destruct H as (run & (-> & -> & _) & Hrun & Hstop). simpl.
    apply IH, Hpush. unfold token_ok. simpl. rewrite Hrun, andb_true_r.
    apply bool_decide_eq_true. intros ->.
    rewrite Nat.add_0_r in Hstop. congruence. }
  destruct (letterReg (input !! current)) eqn:Elet.
  { pose proof (letter_loop_inv fuel input current []) as H.
    destruct (letter_loop _ _ _ _ _) as [[current' v]| |]; try done.
    destruct H as (run & (-> & -> & _) & Hrun & Hstop). simpl.
    apply IH, Hpush. unfold token_ok. simpl. rewrite Hrun, andb_true_r.
    apply bool_decide_eq_true. intros ->.
    rewrite Nat.add_0_r in Hstop. congruence. }
  destruct (parenReg (input !! current)) eqn:Epar.
  { apply IH, Hpush. destruct (input !! current) as [p|]; [|done].
    simpl in Epar. unfold is_paren in Epar.
    apply orb_true_iff in Epar as [H|H]; apply N.eqb_eq in H; by subst. }
  destruct (whiteSpaceReg (input !! current)) eqn:Ews; [by apply IH|].
  destruct (decide (input !! current = Some quote)) as [Eq|Eq].
  { pose proof (string_loop_inv fuel input (S current) []) as H.
    destruct (string_loop _ _ _ _ _) as [[current' v]| |]; try done.
    destruct H as (run & (-> & -> & _) & Hrun & Hstop). simpl.
    by apply IH, Hpush. }
  by rewrite TokenizerFacts.main_loop_default.
Qed.

Lemma print_tokens_cons (t : token) (tokens : list token) :
  print_tokens (t :: tokens)
  = token_text t ++ 32%N :: print_tokens tokens.
Proof.
  unfold print_tokens. rewrite fmap_cons. cbn [concat].
  by rewrite <- app_assoc.
Qed.

(** A space is skipped. *)
Lemma main_loop_space fuel (pre rest : jsstring) tokens console :
  main_loop (S fuel) (pre ++ 32%N :: rest) (length pre) tokens console
  = main_loop fuel (pre ++ 32%N :: rest) (S (length pre)) tokens console.
Proof.
  cbn [main_loop]. rewrite decide_True.
  2:{ rewrite length_app. simpl. lia. }
  by rewrite list_lookup_middle.
Qed.

Lemma letter_not_digit (c : N) : is_letter c = true → is_digit c = false.
Proof.
  intros H. destruct (is_digit c) eqn:E; [|done].
  apply digit_not_letter in E. congruence.
Qed.

(** The main loop on the printed form of well-formed tokens. *)
Lemma main_loop_print (ts : list token) :
  ∀ pre acc console fuel,
    forallb token_ok ts = true →
    length (print_tokens ts) < fuel →
    main_loop fuel (pre ++ print_tokens ts) (length pre) acc console
    = Ok (acc ++ ts, console).
Proof.
  induction ts as [|[ty v] ts IH]; intros pre acc console fuel Hok Hfuel.
  { destruct fuel; [simpl in Hfuel; lia|]. cbn [main_loop print_tokens].
    simpl. rewrite app_nil_r, decide_False by lia. by rewrite app_nil_r. }
  cbn [forallb] in Hok. apply andb_true_iff in Hok as [Ht Hok].
  rewrite print_tokens_cons in *. rewrite length_app in Hfuel.
  cbn [length] in Hfuel.
  assert (∀ v', length v' = length (token_text (Token ty v)) →
            ∀ f, length (print_tokens ts) < f →
            main_loop (S f) ((pre ++ v') ++ 32%N :: print_tokens ts)
              (length (pre ++ v')) (acc ++ [Token ty v]) console
            = Ok (acc ++ Token ty v :: ts, console)) as Hrest.
  { intros v' Hv' f Hf. rewrite main_loop_space.
    replace ((pre ++ v') ++ 32%N :: print_tokens ts)
      with (((pre ++ v') ++ [32%N]) ++ print_tokens ts)
      by (by rewrite <- (app_assoc _ [32%N])).
    replace (S (length (pre ++ v'))) with (length ((pre ++ v') ++ [32%N]))
      by (rewrite (length_app _ [32%N]); simpl; lia).
    rewrite IH by done. by rewrite <- app_assoc. }
  destruct fuel as [|fuel]; [lia|].
  unfold token_ok in Ht. cbn [type value] in Ht.
  unfold token_text in *. cbn [type value] in *.
  assert (length pre < length (pre ++ token_text (Token ty v)
                               ++ 32%N :: print_tokens ts)) as Hlen.
  { rewrite !length_app. simpl. lia. }
  destruct ty.
  - (* name *)
    apply andb_true_iff in Ht as [Hne Hletters].
    apply bool_decide_eq_true in Hne.
    destruct v as [|c v]; [done|]. pose proof Hletters as Hall.
    simpl in Hletters. apply andb_true_iff in Hletters as [Hc _].
    cbn [main_loop]. rewrite decide_True by exact Hlen.
    rewrite (lookup_middle_app pre (c :: v)). cbn [app head].
    cbn [numberReg letterReg from_option].
    rewrite (letter_not_digit c Hc), Hc.
    change (Some c) with (head ((c :: v) ++ 32%N :: print_tokens ts)).
    rewrite <- (lookup_middle_app pre).
    rewrite (letter_loop_scan (c :: v) pre (32%N :: print_tokens ts));
      [|done|done|simpl in *; lia].
    cbn [mbind outcome_bind app].
    replace (length pre + length (c :: v)) with (length (pre ++ c :: v))
      by (by rewrite length_app).
    replace (pre ++ c :: v ++ 32%N :: print_tokens ts)
      with ((pre ++ c :: v) ++ 32%N :: print_tokens ts)
      by (by rewrite <- app_assoc).
    destruct fuel as [|fuel]; [simpl in Hfuel; lia|].
    apply Hrest; [done|simpl in *; lia].
  - (* paren *)
    assert (∃ p, v = [p] ∧ is_paren p = true) as (p & -> & Hp).
    { apply orb_true_iff in Ht as [H|H]; apply bool_decide_eq_true in H;
        subst; by eexists. }
    assert (is_digit p = false ∧ is_letter p = false) as [Hd Hl].
    { unfold is_paren in Hp. apply orb_true_iff in Hp as [H|H];
        apply N.eqb_eq in H; by subst. }
    cbn [main_loop]. rewrite decide_True by exact Hlen.
    rewrite (lookup_middle_app pre [p]). cbn [app head].
    cbn [numberReg letterReg parenReg from_option]. rewrite Hd, Hl, Hp.
    cbn [append from_option app].
    replace (S (length pre)) with (length (pre ++ [p]))
      by (rewrite length_app; simpl; lia).
    replace (pre ++ p :: 32%N :: print_tokens ts)
      with ((pre ++ [p]) ++ 32%N :: print_tokens ts)
      by (by rewrite <- app_assoc).
    destruct fuel as [|fuel]; [simpl in Hfuel; lia|].
    apply Hrest; [done|simpl in *; lia].
  - (* number *)
    apply andb_true_iff in Ht as [Hne Hdigits].
    apply bool_decide_eq_true in Hne.
    destruct v as [|c v]; [done|]. pose proof Hdigits as Hall.
    simpl in Hdigits. apply andb_true_iff in Hdigits as [Hc _].
    cbn [main_loop]. rewrite decide_True by exact Hlen.
    rewrite (lookup_middle_app pre (c :: v)). cbn [app head].
    cbn [numberReg from_option]. rewrite Hc.
    change (Some c) with (head ((c :: v) ++ 32%N :: print_tokens ts)).
    rewrite <- (lookup_middle_app pre).
    rewrite (number_loop_scan (c :: v) pre (32%N :: print_tokens ts));
      [|done|done|simpl in *; lia].
    cbn [mbind outcome_bind app].
    replace (length pre + length (c :: v)) with (length (pre ++ c :: v))
      by (by rewrite length_app).
    replace (pre ++ c :: v ++ 32%N :: print_tokens ts)
      with ((pre ++ c :: v) ++ 32%N :: print_tokens ts)
      by (by rewrite <- app_assoc).
    destruct fuel as [|fuel]; [simpl in Hfuel; lia|].
    apply Hrest; [done|simpl in *; lia].
  - (* string *)
    cbn [main_loop]. rewrite decide_True by exact Hlen.
    rewrite (lookup_middle_app pre ([quote] ++ v ++ [quote])).
    cbn [app head]. cbn [numberReg letterReg parenReg whiteSpaceReg
                         from_option].
    change (is_digit quote) with false. change (is_letter quote) with false.
    change (is_paren quote) with false.
    change (is_whitespace quote) with false. cbn iota.
    rewrite decide_True by done.
    replace (pre ++ quote :: (v ++ [quote]) ++ 32%N :: print_tokens ts)
      with ((pre ++ [quote]) ++ v ++ quote :: 32%N :: print_tokens ts).
    2:{ rewrite <- !app_assoc. done. }
    replace (S (length pre)) with (length (pre ++ [quote]))
      by (rewrite length_app; simpl; lia).
    rewrite string_loop_scan; [|done|].
    2:{ rewrite !length_app in Hfuel. simpl in Hfuel. lia. }
    cbn [mbind outcome_bind app].
    replace (S (length (pre ++ [quote]) + length v))
      with (length (pre ++ [quote] ++ v ++ [quote])).
    2:{ rewrite !length_app. simpl. lia. }
    replace ((pre ++ [quote]) ++ v ++ quote :: 32%N :: print_tokens ts)
      with ((pre ++ [quote] ++ v ++ [quote]) ++ 32%N :: print_tokens ts).
    2:{ rewrite <- !app_assoc. simpl. by rewrite <- ?app_assoc. }
    destruct fuel as [|fuel].
    { rewrite !length_app in Hfuel. simpl in Hfuel. lia. }
    apply Hrest; [done|].
    rewrite !length_app in Hfuel. simpl in Hfuel. lia.
Qed.
End TokenizerMore.

Module TokenizerReturns.
Import Tokenizer TokenizerScans.

(** The scan of a number ends, at the latest at the end of the input. *)
Lemma number_loop_returns fuel input :
  ∀ current numberValue,
    length input - current < fuel →
    ∃ current' v',
      number_loop fuel input current (input !! current) numberValue
      = Ok (current', v').
Proof.
  induction fuel as [|fuel IH]; intros current v Hfuel; [lia|].
  cbn [number_loop]. destruct (numberReg (input !! current)) eqn:E;
    [|by eexists _, _].
  destruct (input !! current) eqn:Hc; [|done].
  cbn [append mbind outcome_bind]. apply IH.
  apply lookup_lt_Some in Hc. lia.
Qed.

(** The scan of a name ends when a character that is not a letter lies
    ahead. *)
Lemma letter_loop_returns fuel input (j : nat) (x : N) :
  input !! j = Some x → is_letter x = false →
  ∀ current letterValue,
    current ≤ j → length input - current < fuel →
    ∃ current' v',
      letter_loop fuel input current (input !! current) letterValue
      = Ok (current', v').
Proof.
  intros Hj Hx.
  induction fuel as [|fuel IH]; intros current v Hle Hfuel; [lia|].
  cbn [letter_loop]. destruct (letterReg (input !! current)) eqn:E;
    [|by eexists _, _].
  pose proof (lookup_lt_Some _ _ _ Hj).
  destruct (input !! current) as [y|] eqn:Hy.
  2:{ apply lookup_ge_None in Hy. lia. }
  cbn [append mbind outcome_bind]. apply IH; [|lia].
  destruct (decide (current = j)) as [->|]; [|lia].
  rewrite Hj in Hy. injection Hy as <-. simpl in E. congruence.
Qed.

(** The main loop returns on an input of digits, letters, parentheses and
    white space that does not end with a letter. *)
Lemma main_loop_plain fuel input :
  forallb plain input = true →
  (∀ c, last input = Some c → is_letter c = false) →
  ∀ current tokens console,
    S (length input - current) < fuel →
    ∃ tokens', main_loop fuel input current tokens console
               = Ok (tokens', console).
Proof.
  intros Hplain Hlast.
  induction fuel as [|fuel IH]; intros current tokens console Hfuel; [lia|].
  cbn [main_loop].
  destruct (decide (current < length input)) as [Hlt|]; [|by eexists].
  destruct (lookup_lt_is_Some_2 _ _ Hlt) as [x Hx].
  assert (plain x = true) as Hpx.
  { rewrite forallb_forall in Hplain. apply Hplain.
    apply list_elem_of_In. by eapply list_elem_of_lookup_2. }
  destruct (numberReg (input !! current)) eqn:Enum.
  { destruct (number_loop_returns fuel input current []) as (c' & v' & Hrun);
      [lia|].
    pose proof (number_loop_inv fuel input current []) as Hinv.
    rewrite Hrun in *. destruct Hinv as (run & (_ & -> & _) & _ & Hstop).
    cbn [mbind outcome_bind]. apply IH.
    assert (run ≠ []).
    { intros ->. rewrite Nat.add_0_r in Hstop. congruence. }
    destruct run; [done|]. simpl. lia. }
  destruct (letterReg (input !! current)) eqn:Elet.
  { destruct (last input) as [z|] eqn:Hz.
    2:{ apply last_None in Hz. subst. simpl in Hlt. lia. }
    pose proof (Hlast z eq_refl) as Hzl. rewrite last_lookup in Hz.
    destruct (letter_loop_returns fuel input _ z Hz Hzl current [])
      as (c' & v' & Hrun); [lia|lia|].
    pose proof (letter_loop_inv fuel input current []) as Hinv.
    rewrite Hrun in *. destruct Hinv as (run & (_ & -> & _) & _ & Hstop).
    cbn [mbind outcome_bind]. apply IH.
    assert (run ≠ []).
    { intros ->. rewrite Nat.add_0_r in Hstop. congruence. }
    destruct run; [done|]. simpl. lia. }
  destruct (parenReg (input !! current)) eqn:Epar; [apply IH; lia|].
  destruct (whiteSpaceReg (input !! current)) eqn:Ews; [apply IH; lia|].
  exfalso. rewrite Hx in *. simpl in *. unfold plain in Hpx.
  by rewrite Enum, Elet, Epar, Ews in Hpx.
Qed.
End TokenizerReturns.

(** X1: [tokenizer] never returns on an input that ends with a letter: at
    every fuel it is still running, or has thrown the [RangeError] of a
    string grown too long.  The scan of a name that has reached the last
    character goes on after the end of the input, where the letter test
    accepts [undefined], and ends with that [RangeError], whatever it had
    collected. *)
Theorem tokenizer_never_returns_on_trailing_letter (input : jsstring)
    (c : N) :
  last input = Some c → Tokenizer.is_letter c = true →
  (∀ fuel,
     tokenizer fuel input = OutOfFuel
     ∨ tokenizer fuel input = Throw RangeError_length)
  ∧ (∀ letterValue, ∃ fuel0, ∀ fuel, fuel0 ≤ fuel →
       Tokenizer.letter_loop fuel input (length input - 1) (Some c)
         letterValue
       = Throw RangeError_length).
Proof.
  intros Hlast Hc.
  assert (0 < length input) as Hlen by (destruct input; [done|simpl; lia]).
  split.
  - intros fuel. unfold tokenizer, Tokenizer.run.
    pose proof (TokenizerMore.main_loop_last_letter fuel input c Hlast Hc
                  0 [] []) as Hnever.
    destruct (Tokenizer.main_loop fuel input 0 [] []) as [r|e|] eqn:E.
    + by destruct (Hnever r Hlen).
    + right. by rewrite (TokenizerFacts.main_loop_throws _ _ _ _ _ _ E).
    + by left.
  - intros letterValue. rewrite last_lookup in Hlast.
    replace (pred (length input)) with (length input - 1) in Hlast by lia.
    rewrite <- Hlast. apply TokenizerFacts.letter_loop_throws; [lia|].
    rewrite (drop_S _ _ _ Hlast), drop_ge by lia. simpl. by rewrite Hc.
Qed.

Lemma tokenizer_never_returns_on_trailing_letter_witness :
  (∀ fuel,
     tokenizer fuel (codes "(add 2 x") = OutOfFuel
     ∨ tokenizer fuel (codes "(add 2 x") = Throw RangeError_length)
  ∧ (∀ letterValue, ∃ fuel0, ∀ fuel, fuel0 ≤ fuel →
       Tokenizer.letter_loop fuel (codes "(add 2 x") 7 (Some 120%N)
         letterValue
       = Throw RangeError_length).
Proof.
  exact (tokenizer_never_returns_on_trailing_letter (codes "(add 2 x")
           120%N eq_refl eq_refl).
Defined.

(** X2: every token that [tokenizer] returns is well formed: the text of a
    number token is a non-empty run of digits, that of a name token a
    non-empty run of letters, that of a paren token one parenthesis, and
    that of a string token has no double quote. *)
Theorem tokenizer_returns_well_formed_tokens (fuel : nat) (input : jsstring)
    (tokens : list token) :
  tokenizer fuel input = Ok tokens → forallb token_ok tokens = true.
Proof.
  unfold tokenizer, Tokenizer.run.
  destruct (Tokenizer.main_loop fuel input 0 [] []) as [[ts console]| |]
    eqn:E; try done.
  intros [= <-].
  by destruct (TokenizerMore.main_loop_tokens fuel input 0 [] [] ts console
                 eq_refl E).
Qed.

Lemma tokenizer_returns_well_formed_tokens_witness :
  forallb token_ok
    [Token tk_paren (codes "("); Token tk_name (codes "f");
     Token tk_number (codes "12"); Token tk_string (codes "a b");
     Token tk_paren (codes ")")] = true.
Proof.
  exact (tokenizer_returns_well_formed_tokens 20
           (codes "(f 12 " ++ [quote] ++ codes "a b" ++ [quote] ++ codes ")")
           _ eq_refl).
Defined.

(** X3: a run of [tokenizer] that returns has logged nothing: the default
    case of the main loop is reached only in runs that never return. *)
Theorem tokenizer_logs_nothing_when_it_returns (fuel : nat)
    (input : jsstring) (tokens : list token) (console : list (option N)) :
  Tokenizer.run fuel input = Ok (tokens, console) → console = [].
Proof.
  intros E.
  by destruct (TokenizerMore.main_loop_tokens fuel input 0 [] [] tokens
                 console eq_refl E).
Qed.

Lemma tokenizer_logs_nothing_when_it_returns_witness :
  @nil (option N) = [].
Proof.
  exact (tokenizer_logs_nothing_when_it_returns 20 (codes "(f 12)")
           _ _ eq_refl).
Defined.

(** X4: [tokenizer] reads back well-formed tokens from their text: for
    tokens written one after the other with a space after each, and enough
    fuel, it returns these tokens. *)
Theorem tokenizer_print_round_trip (tokens : list token) (fuel : nat) :
  forallb token_ok tokens = true →
  length (print_tokens tokens) < fuel →
  tokenizer fuel (print_tokens tokens) = Ok tokens.
Proof.
  intros Hok Hfuel. unfold tokenizer, Tokenizer.run.
  pose proof (TokenizerMore.main_loop_print tokens [] [] [] fuel Hok Hfuel)
    as H.
  cbn [app length] in H. by rewrite H.
Qed.

Lemma tokenizer_print_round_trip_witness :
  tokenizer 20 (codes "( f 12 " ++ [quote] ++ codes "a b" ++ [quote]
                ++ codes " ) ")
  = Ok [Token tk_paren (codes "("); Token tk_name (codes "f");
        Token tk_number (codes "12"); Token tk_string (codes "a b");
        Token tk_paren (codes ")")].
Proof.
  apply (tokenizer_print_round_trip
           [Token tk_paren (codes "("); Token tk_name (codes "f");
            Token tk_number (codes "12"); Token tk_string (codes "a b");
            Token tk_paren (codes ")")] 20); [reflexivity|simpl; lia].
Defined.

(** X5: [tokenizer] returns on every input that consists of digits,
    letters, parentheses and white space and does not end with a letter,
    given two units of fuel more than the input has characters. *)
Theorem tokenizer_returns_on_plain_input (input : jsstring) (fuel : nat) :
  forallb plain input = true →
  (∀ c, last input = Some c → Tokenizer.is_letter c = false) →
  S (length input) < fuel →
  ∃ tokens, tokenizer fuel input = Ok tokens.
Proof.
  intros Hplain Hlast Hfuel. unfold tokenizer, Tokenizer.run.
  destruct (TokenizerReturns.main_loop_plain fuel input Hplain Hlast 0 [] [])
    as [tokens ->]; [lia|].
  by eexists.
Qed.

Lemma tokenizer_returns_on_plain_input_witness :
  ∃ tokens, tokenizer 30 (codes "(add 2 (subtract 4 2))") = Ok tokens.
Proof.
  apply (tokenizer_returns_on_plain_input (codes "(add 2 (subtract 4 2))")
           30); [reflexivity| |simpl; lia].
  intros c [= <-]. reflexivity.
Defined.

(** * Further properties of the parser *)

Module ParserMore.
Import Parser ParserFacts.

(** The result of [walk] with the fuel that [parser] gives to its first
    call. *)
Lemma walk_parser_fuel fuel tokens st r :
  walk fuel tokens st = r → r ≠ OutOfFuel →
  0 < length tokens →
  walk (length tokens) tokens st = r.
Proof.
  intros Hr Hne Hlen.
  destruct (walk (length tokens) tokens st) as [x|e|] eqn:E.
  - apply (proj1 (walk_mono _) (fuel `max` length tokens)) in E;
      [|done|lia].
    apply (proj1 (walk_mono _) (fuel `max` length tokens)) in Hr;
      [|done|lia].
    congruence.
  - apply (proj1 (walk_mono _) (fuel `max` length tokens)) in E;
      [|done|lia].
    apply (proj1 (walk_mono _) (fuel `max` length tokens)) in Hr;
      [|done|lia].
    congruence.
  - exfalso. revert E. apply (proj1 (walk_fuel_enough _)); lia.
Qed.

Lemma tokens_of_not_closing (n : node) (rest : list token) :
  is_expression n = true →
  ∃ t, head (tokens_of n ++ rest) = Some t ∧ not_closing t = true.
Proof. destruct n; try done; intros _; by eexists. Qed.

(** [walk] on the tokens of an expression returns the expression and
    stops after its tokens. *)
Lemma walk_tokens_of (n : node) :
  is_expression n = true →
  ∀ pre post,
    ∃ fuel st1,
      walk fuel (pre ++ tokens_of n ++ post)
        (State (length pre) ((pre ++ tokens_of n ++ post) !! length pre))
      = Ok (n, st1)
      ∧ current st1 = length pre + length (tokens_of n)
      ∧ (node_type n = T_CallExpression →
         tok st1 = Some (Token tk_paren (codes ")"))).
Proof.
  induction n as [v|v|name params IH|body IH] using node_ind';
    intros Hn pre post.
  - exists 1. eexists. cbn [tokens_of walk tok current app].
    rewrite list_lookup_middle by done. cbn [type value].
    split; [done|]. split; [simpl; lia|done].
  - exists 1. eexists. cbn [tokens_of walk tok current app].
    rewrite list_lookup_middle by done. cbn [type value].
    split; [done|]. split; [simpl; lia|done].
  - cbn [is_expression] in Hn.
    assert (∀ rest acc pre',
              Forall (λ c, is_expression c = true →
                           ∀ pre post, ∃ fuel st1,
                             walk fuel (pre ++ tokens_of c ++ post)
                               (State (length pre)
                                  ((pre ++ tokens_of c ++ post)
                                     !! length pre))
                             = Ok (c, st1)
                             ∧ current st1
                               = length pre + length (tokens_of c)
                             ∧ (node_type c = T_CallExpression →
                                tok st1
                                = Some (Token tk_paren (codes ")"))))
                rest →
              forallb is_expression rest = true →
              let tokens :=
                pre' ++ concat (tokens_of <$> rest)
                     ++ Token tk_paren (codes ")") :: post in
              ∃ fuel,
                params_loop fuel tokens name acc
                  (State (length pre') (tokens !! length pre'))
                = Ok (CallExpression name (acc ++ rest),
                      State (S (length pre'
                                + length (concat (tokens_of <$> rest))))
                        (Some (Token tk_paren (codes ")"))))) as Hloop.
    { clear. intros rest.
      induction rest as [|c rest IHrest]; intros acc pre' Hall Hexpr tokens.
      - exists 1. subst tokens. cbn [fmap list_fmap concat app params_loop tok].
        rewrite list_lookup_middle by done. cbn [not_closing type value].
        simpl. by rewrite app_nil_r, Nat.add_0_r.
      - inversion Hall as [|?? Hc Hrest]; subst.
        cbn [forallb] in Hexpr. apply andb_true_iff in Hexpr as [Hce Hre].
        assert (tokens
                = pre' ++ tokens_of c
                  ++ (concat (tokens_of <$> rest)
                      ++ Token tk_paren (codes ")") :: post)) as Htokens.
        { subst tokens. rewrite fmap_cons. cbn [concat].
          by rewrite <- app_assoc. }
        destruct (Hc Hce pre'
                    (concat (tokens_of <$> rest)
                     ++ Token tk_paren (codes ")") :: post))
          as (f1 & st1 & Hwalk & Hcur & _).
        destruct (IHrest (acc ++ [c]) (pre' ++ tokens_of c) Hrest Hre)
          as (f2 & Hrestloop).
        exists (S (f1 `max` f2)). rewrite Htokens.
        cbn [params_loop tok].
        destruct (tokens_of_not_closing c
                    (concat (tokens_of <$> rest)
                     ++ Token tk_paren (codes ")") :: post) Hce)
          as (t & Ht & Hclosing).
        rewrite lookup_app_r by lia. rewrite Nat.sub_diag.
        rewrite <- head_lookup, Ht, Hclosing.
        assert (Some t
                = (pre' ++ tokens_of c
                   ++ concat (tokens_of <$> rest)
                   ++ Token tk_paren (codes ")") :: post) !! length pre')
          as ->.
        { rewrite lookup_app_r by lia. rewrite Nat.sub_diag.
          by rewrite <- head_lookup. }
        rewrite (proj1 (walk_mono f1) (f1 `max` f2) _ _ _ Hwalk)
          by (done || lia).
        cbn [mbind outcome_bind]. rewrite Hcur.
        rewrite <- length_app.
        rewrite (app_assoc pre' (tokens_of c)).
        rewrite (proj2 (walk_mono f2) (f1 `max` f2) _ _ _ _ _ Hrestloop)
          by (done || lia).
        rewrite <- app_assoc. do 3 f_equal.
        rewrite fmap_cons. cbn [concat]. rewrite !length_app. lia. }
    destruct (Hloop params []
                (pre ++ [Token tk_paren (codes "("); Token tk_name name])
                IH Hn) as (f & Hf).
    exists (S f). eexists. cbn [tokens_of walk tok current app].
    rewrite list_lookup_middle by done. cbn [type value].
    rewrite decide_True by done.
    replace (pre ++ Token tk_paren (codes "(") :: Token tk_name name
                    :: (concat (tokens_of <$> params)
                        ++ [Token tk_paren (codes ")")]) ++ post)
      with ((pre ++ [Token tk_paren (codes "(")])
            ++ Token tk_name name
            :: concat (tokens_of <$> params)
            ++ Token tk_paren (codes ")") :: post).
    2:{ rewrite <- !app_assoc. simpl. by rewrite <- ?app_assoc. }
    rewrite (list_lookup_middle _ _ _ (S (length pre))).
    2:{ rewrite length_app. simpl. lia. }
    cbn [value].
    replace ((pre ++ [Token tk_paren (codes "(")])
             ++ Token tk_name name
             :: concat (tokens_of <$> params)
             ++ Token tk_paren (codes ")") :: post)
      with ((pre ++ [Token tk_paren (codes "("); Token tk_name name])
            ++ concat (tokens_of <$> params)
            ++ Token tk_paren (codes ")") :: post).
    2:{ rewrite <- !app_assoc. done. }
    replace (S (S (length pre)))
      with (length (pre ++ [Token tk_paren (codes "(");
                            Token tk_name name])).
    2:{ rewrite length_app. simpl. lia. }
    cbv zeta in Hf. rewrite Hf. split; [done|]. split; [|done].
    cbn [current]. rewrite !length_app. simpl. rewrite length_app. simpl. lia.
  - done.
Qed.

Lemma tokens_of_nonempty (n : node) :
  is_expression n = true → 0 < length (tokens_of n).
Proof. destruct n; try done; simpl; lia. Qed.

(** The top-level loop after the first call of [walk] has returned a call:
    the stale closing parenthesis makes the next call of [walk] throw. *)
Lemma body_loop_after_call fuel tokens body st :
  tok st = Some (Token tk_paren (codes ")")) →
  current st < length tokens → 1 < fuel →
  body_loop fuel tokens body st = Throw (TypeError "paren").
Proof.
  intros Htok Hlt Hfuel. destruct fuel as [|[|fuel]]; try lia.
  cbn [body_loop walk]. rewrite decide_True by done. by rewrite Htok.
Qed.

(** The top-level loop while the variable [token] stays a literal token:
    one more copy of the literal for each token that is left. *)
Lemma body_loop_literal (t : token) (tokens : list token) :
  type t = tk_number ∨ type t = tk_string →
  ∀ fuel k body,
    length tokens - k < fuel →
    body_loop fuel tokens body (State k (Some t))
    = Ok (body ++ replicate (length tokens - k) (literal_of t)).
Proof.
  intros Ht. induction fuel as [|fuel IH]; intros k body Hfuel; [lia|].
  cbn [body_loop current]. destruct (decide (k < length tokens)) as [Hk|Hk].
  - destruct fuel as [|fuel]; [lia|].
    assert (walk (S fuel) tokens (State k (Some t))
            = Ok (literal_of t, State (S k) (Some t))) as ->.
    { unfold literal_of. cbn [walk tok current]. by destruct Ht as [-> | ->]. }
    cbn [mbind outcome_bind]. rewrite IH by lia.
    replace (length tokens - k) with (S (length tokens - S k)) by lia.
    cbn [replicate]. by rewrite <- app_assoc.
  - replace (length tokens - k) with 0 by lia. by rewrite app_nil_r.
Qed.
(** [parser] on the tokens of an expression. *)
Lemma parser_tokens_of (n : node) :
  is_expression n = true → parser (tokens_of n) = Ok (Program [n]).
Proof.
  intros Hn. destruct (walk_tokens_of n Hn [] [])
    as (fuel & st1 & Hwalk & Hcur & _).
  rewrite app_nil_r in Hwalk. cbn [app length] in Hwalk, Hcur.
  pose proof (tokens_of_nonempty n Hn) as Hlen.
  apply walk_parser_fuel in Hwalk; [|done|done].
  unfold parser, run. cbn [body_loop current].
  rewrite decide_True by done. rewrite Hwalk. cbn [mbind outcome_bind].
  destruct (length (tokens_of n)) as [|k] eqn:E; [lia|].
  cbn [body_loop]. rewrite decide_False by lia. done.
Qed.

(** [parser] on the tokens of a call followed by more tokens. *)
Lemma parser_after_call (name : jsstring) (params : list node)
    (more : list token) :
  forallb is_expression params = true → more ≠ [] →
  parser (tokens_of (CallExpression name params) ++ more)
  = Throw (TypeError "paren").
Proof.
  intros Hparams Hmore.
  destruct (walk_tokens_of (CallExpression name params) Hparams
              [] more) as (fuel & st1 & Hwalk & Hcur & Htok).
  cbn [app length] in Hwalk, Hcur. specialize (Htok eq_refl).
  set (tokens := tokens_of (CallExpression name params) ++ more) in *.
  assert (length (tokens_of (CallExpression name params)) < length tokens)
    as Hlen.
  { subst tokens. rewrite length_app. destruct more; [done|simpl; lia]. }
  assert (2 < length (tokens_of (CallExpression name params))) as Hcall.
  { simpl. rewrite length_app. simpl. lia. }
  apply walk_parser_fuel in Hwalk; [|done|lia].
  unfold parser, run. cbn [body_loop current].
  rewrite decide_True by lia. rewrite Hwalk. cbn [mbind outcome_bind].
  rewrite body_loop_after_call; [done|done|lia|lia].
Qed.

End ParserMore.

(** X6: [parser] terminates on every token sequence: it returns a tree or
    throws. *)
Theorem parser_terminates (tokens : list token) :
  (∃ ast, parser tokens = Ok ast) ∨ (∃ e, parser tokens = Throw e).
Proof.
  pose proof (ParserFacts.parser_fuel_enough tokens) as H.
  destruct (parser tokens) as [ast|e|]; [left|right|done]; by eexists.
Qed.

(** X7: every tree that [parser] returns is a [Program] whose body consists
    of literals and of calls of literals and calls: no [Program] occurs
    below the root. *)
Theorem parser_returns_valid_tree (tokens : list token) (ast : node) :
  parser tokens = Ok ast → valid ast = true.
Proof. apply ParserFacts.parser_valid. Qed.

Lemma parser_returns_valid_tree_witness :
  valid (Program [CallExpression (codes "f") [NumberLiteral (codes "1")]])
  = true.
Proof.
  exact (parser_returns_valid_tree
           [Token tk_paren (codes "("); Token tk_name (codes "f");
            Token tk_number (codes "1"); Token tk_paren (codes ")")]
           _ eq_refl).
Defined.

(** X8: [parser] rebuilds every expression from its tokens: for a literal
    or a call [n], the tokens of [n] are parsed to the program whose body
    is [n] alone. *)
Theorem parser_tokens_round_trip (n : node) :
  is_expression n = true → parser (tokens_of n) = Ok (Program [n]).
Proof. apply ParserMore.parser_tokens_of. Qed.

Lemma parser_tokens_round_trip_witness :
  parser (tokens_of call_example) = Ok (Program [call_example]).
Proof. exact (parser_tokens_round_trip call_example eq_refl). Defined.

(** X9: tokens after a complete first call make [parser] throw
    [TypeError("paren")]: the second call of [walk] in the top-level loop
    still sees the closing parenthesis of the first call.  So two calls in
    a row, as in [(add 2 3)(subtract 4 3)], are not parsed. *)
Theorem parser_throws_after_first_call (name : jsstring)
    (params : list node) (more : list token) :
  forallb is_expression params = true → more ≠ [] →
  parser (tokens_of (CallExpression name params) ++ more)
  = Throw (TypeError "paren").
Proof. apply ParserMore.parser_after_call. Qed.

Lemma parser_throws_after_first_call_witness :
  parser (tokens_of (CallExpression (codes "add")
                       [NumberLiteral (codes "2"); NumberLiteral (codes "3")])
          ++ tokens_of (CallExpression (codes "subtract")
                          [NumberLiteral (codes "4");
                           NumberLiteral (codes "3")]))
  = Throw (TypeError "paren").
Proof.
  apply (parser_throws_after_first_call (codes "add")
           [NumberLiteral (codes "2"); NumberLiteral (codes "3")]);
    [reflexivity|discriminate].
Defined.

(** X10: when the first token is a number or a string, [parser] never reads
    another token: it returns as many copies of that literal as there are
    tokens, whatever the other tokens are. *)
Theorem parser_repeats_first_literal (t : token) (rest : list token) :
  type t = tk_number ∨ type t = tk_string →
  parser (t :: rest)
  = Ok (Program (replicate (S (length rest)) (literal_of t))).
Proof.
  intros Ht. unfold parser, Parser.run.
  cbn [lookup list_lookup].
  rewrite (ParserMore.body_loop_literal t (t :: rest) Ht); [|simpl; lia].
  by rewrite Nat.sub_0_r.
Qed.

Lemma parser_repeats_first_literal_witness :
  parser [Token tk_number (codes "1"); Token tk_paren (codes "(");
          Token tk_name (codes "add"); Token tk_paren (codes ")")]
  = Ok (Program (replicate 4 (NumberLiteral (codes "1")))).
Proof.
  apply (parser_repeats_first_literal (Token tk_number (codes "1"))
           [Token tk_paren (codes "("); Token tk_name (codes "add");
            Token tk_paren (codes ")")]).
  left. reflexivity.
Defined.

(** X11: a token sequence that stops inside an expression makes [parser]
    throw: every non-empty proper prefix of the tokens of a literal or call
    is rejected. *)
Theorem parser_rejects_proper_prefix (n : node) (tokens suffix : list token) :
  is_expression n = true →
  tokens_of n = tokens ++ suffix → tokens ≠ [] → suffix ≠ [] →
  ∃ e, parser tokens = Throw e.
Proof.
  intros Hn Hsplit Htokens Hsuffix.
  destruct (ParserMore.walk_tokens_of n Hn [] [])
    as (fuel & st1 & Hwalk & Hcur & _).
  rewrite app_nil_r in Hwalk. cbn [app length] in Hwalk, Hcur.
  rewrite Hsplit in Hwalk, Hcur.
  by apply (ParserFacts.parser_unterminated_call tokens suffix fuel n st1).
Qed.

Lemma parser_rejects_proper_prefix_witness :
  ∃ e, parser [Token tk_paren (codes "("); Token tk_name (codes "add");
               Token tk_paren (codes "("); Token tk_name (codes "f");
               Token tk_paren (codes ")")] = Throw e.
Proof.
  apply (parser_rejects_proper_prefix
           (CallExpression (codes "add") [CallExpression (codes "f") []])
           _ [Token tk_paren (codes ")")]);
    [reflexivity|reflexivity|discriminate|discriminate].
Defined.

(** * Further properties of the transformer and the code generator *)

Module BackEnd.
Import Traverser Transformer TransformerFacts.

(** The text generated for the target of an expression. *)
Lemma codeGenerator_expression (n : node) :
  is_expression n = true →
  ∀ p, codeGenerator (parsedNode_of (expression_of n p))
       = Str (expression_text n).
Proof.
  induction n as [v|v|name params IH|body IH] using node_ind';
    intros Hn p; try done.
  cbn [expression_of parsedNode_of codeGenerator expression_text
       is_expression] in *.
  do 3 f_equal. cbn [id_name Generator.of_option Generator.ToString].
  f_equal. f_equal. unfold Generator.join. f_equal.
  rewrite <- !list_fmap_compose.
  assert (∀ k,
            (λ e, match e with
                  | Undefined => []
                  | _ => Generator.ToString e
                  end) ∘ codeGenerator ∘ parsedNode_of
              <$> mapi_from (λ i c, expression_of c (p ++ [i])) k params
            = expression_text <$> params) as H; [|apply H].
  revert Hn. induction IH as [|c params Hc _ IHparams]; intros Hn k; [done|].
  cbn [mapi_from forallb] in *. rewrite !fmap_cons.
  apply andb_true_iff in Hn as [Hn1 Hn2].
  rewrite IHparams by done. f_equal. cbn [compose]. by rewrite Hc.
Qed.

Lemma codeGenerator_statement (n : node) (p : path) :
  is_expression n = true →
  codeGenerator (parsedNode_of (statement_of n p)) = Str (statement_text n).
Proof.
  intros Hn. destruct n as [v|v|name params|body]; try done.
  unfold statement_of, statement_text. cbn [parsedNode_of codeGenerator].
  by rewrite (codeGenerator_expression (CallExpression name params) Hn p).
Qed.

(** The target of an expression is well formed for [codeGenerator]. *)
Lemma well_formed_expression_of (n : node) :
  is_expression n = true →
  ∀ p, well_formed_expression (parsedNode_of (expression_of n p)) = true.
Proof.
  induction n as [v|v|name params IH|body IH] using node_ind';
    intros Hn p; try done.
  cbn [expression_of parsedNode_of well_formed_expression is_expression
       id_name] in *.
  rewrite bool_decide_eq_true_2 by by eexists. cbn [andb].
  generalize 0 as k. revert Hn.
  induction IH as [|c params Hc _ IHparams]; intros Hn k; [done|].
  cbn [mapi_from forallb fmap list_fmap] in *.
  apply andb_true_iff in Hn as [Hn1 Hn2].
  rewrite Hc by done. by apply IHparams.
Qed.

Lemma well_formed_statement_of (n : node) (p : path) :
  is_expression n = true →
  well_formed_expression (parsedNode_of (statement_of n p)) = true.
Proof.
  intros Hn. destruct n as [v|v|name params|body]; try done.
  unfold statement_of. cbn [parsedNode_of well_formed_expression].
  by apply (well_formed_expression_of (CallExpression name params)).
Qed.


(** The traversal of an expression at the root: nothing reaches the body
    of [newAst]. *)
Lemma traverse_root_expression (n : node) :
  is_expression n = true →
  ∃ h, traverseNode visitor n [] None initial = Ok h
       ∧ arrays h !! newAst_body = Some [].
Proof.
  intros Hn. destruct n as [v|v|name params|body]; try done.
  - exists initial. by split.
  - exists initial. by split.
  - set (n := CallExpression name params).
    set (h1 := Heap (<[[] := arguments_at []]> (context initial))
                    (<[arguments_at [] := []]> (arrays initial))).
    destruct (visits_well_children n [] (arguments_at []) params)
      with (k := 0) (h := h1)
      as (h & Hrun & _ & Hframe & _); try done.
    { apply Forall_forall. intros c Hc. apply visits_well_expression.
      simpl in Hn. rewrite forallb_forall in Hn. apply Hn.
      by apply list_elem_of_In. }
    exists h. split.
    + unfold n at 1.
      cbn [traverseNode node_type visitor mbind option_bind enter exit call].
      unfold enter_call. cbn [pos deref]. fold h1.
      cbn [outcome_bind].
      change (forEach_from
                (λ i child, traverseNode visitor child ([] ++ [i])
                              (Some (Ref [] n))) 0 params h1
              ≫= (λ s2, Ok s2) = Ok h).
      by rewrite Hrun.
    + rewrite Hframe; [done|done|done].
Qed.

(** The code generated for the tree that [transformer] returns. *)
Lemma codeGenerator_transformed (ast : node) :
  valid ast = true →
  codeGenerator (parsedNode_of (transformed ast))
  = Arr ((λ c, Str (statement_text c)) <$> children ast).
Proof.
  intros Hvalid. destruct ast as [| | |body]; try done.
  cbn [valid transformed parsedNode_of codeGenerator children] in *.
  f_equal. rewrite <- list_fmap_compose.
  generalize 0 as k. induction body as [|c body IH]; intros k; [done|].
  cbn [mapi_from forallb] in *. rewrite !fmap_cons.
  apply andb_true_iff in Hvalid as [Hc Hbody].
  rewrite IH by done. f_equal. cbn [compose].
  by apply codeGenerator_statement.
Qed.
End BackEnd.

(** X13: for every valid source tree, [transformer] returns a program with
    one entry for each entry of the source body, in the same order: a call
    becomes an [ExpressionStatement] around a [CallExpression] whose callee
    is an [Identifier] of the name of the call and whose arguments are the
    targets of its parameters, in order; a literal is taken as it is. *)
Theorem transformer_mirrors_source (ast : node) :
  valid ast = true →
  transformer ast
  = Ok (New_Program (mapi_from (λ i c, statement_of c [i]) 0 (children ast))).
Proof.
  intros Hvalid.
  destruct (TransformerFacts.run_valid ast Hvalid) as (h & Hrun & _).
  unfold transformer. by rewrite Hrun.
Qed.

Lemma transformer_mirrors_source_witness :
  transformer (Program [call_example; NumberLiteral (codes "7")])
  = Ok (New_Program
          [New_ExpressionStatement
             (New_CallExpression (Identifier (Some (codes "add")))
                [Source_node (Ref [0; 0] (NumberLiteral (codes "2")));
                 New_CallExpression (Identifier (Some (codes "subtract")))
                   [Source_node (Ref [0; 1; 0] (NumberLiteral (codes "4")));
                    Source_node
                      (Ref [0; 1; 1] (StringLiteral (codes "x")))]]);
           Source_node (Ref [1] (NumberLiteral (codes "7")))]).
Proof.
  exact (transformer_mirrors_source
           (Program [call_example; NumberLiteral (codes "7")]) eq_refl).
Defined.

(** X14: a tree whose root is not a [Program] is transformed to an empty
    program: for a literal or a call at the root, nothing is pushed into
    the body of [newAst]. *)
Theorem transformer_drops_root_expression (n : node) :
  is_expression n = true → transformer n = Ok (New_Program []).
Proof.
  intros Hn. destruct (BackEnd.traverse_root_expression n Hn)
    as (h & Hrun & Hbody).
  unfold transformer, Transformer.run, traverser, Traverser.run.
  rewrite Hrun. cbn [mbind outcome_bind]. by rewrite Hbody.
Qed.

Lemma transformer_drops_root_expression_witness :
  transformer call_example = Ok (New_Program []).
Proof. exact (transformer_drops_root_expression call_example eq_refl). Defined.



(** X16: the tree that [transformer] returns for a valid source tree is well
    formed for [codeGenerator]: every node has the fields of its kind. *)
Theorem transformer_returns_well_formed_tree (ast : node) :
  valid ast = true →
  ∃ t, transformer ast = Ok t ∧ well_formed (parsedNode_of t) = true.
Proof.
  intros Hvalid. exists (transformed ast). split.
  { destruct (TransformerFacts.run_valid ast Hvalid) as (h & Hrun & _).
    unfold transformer. by rewrite Hrun. }
  destruct ast as [| | |body]; try done.
  cbn [valid transformed parsedNode_of well_formed p_type p_body children]
    in *.
  generalize 0 as k. induction body as [|c body IH]; intros k; [done|].
  cbn [mapi_from forallb fmap list_fmap] in *.
  apply andb_true_iff in Hvalid as [Hc Hbody].
  rewrite BackEnd.well_formed_statement_of by done. by apply IH.
Qed.

Lemma transformer_returns_well_formed_tree_witness :
  ∃ t, transformer (Program [call_example]) = Ok t
       ∧ well_formed (parsedNode_of t) = true.
Proof.
  exact (transformer_returns_well_formed_tree (Program [call_example])
           eq_refl).
Defined.

(** X17: [transformer] followed by [codeGenerator] prints a valid source
    tree: the result is the array with, for each entry of the source body
    in order, the text of a call in C style followed by a semicolon, or
    the text of a literal. *)
Theorem generated_code_of_valid_tree (ast : node) :
  valid ast = true →
  ∃ t, transformer ast = Ok t
       ∧ codeGenerator (parsedNode_of t)
         = Arr ((λ c, Str (statement_text c)) <$> children ast).
Proof.
  intros Hvalid. exists (transformed ast). split.
  - by apply TransformerFacts.transformer_valid.
  - by apply BackEnd.codeGenerator_transformed.
Qed.

Lemma generated_code_of_valid_tree_witness :
  ∃ t, transformer (Program [call_example; NumberLiteral (codes "7")]) = Ok t
       ∧ codeGenerator (parsedNode_of t)
         = Arr [Str (codes "add(2,subtract(4," ++ [quote] ++ codes "x"
                     ++ [quote] ++ codes "));");
                Str (codes "7")].
Proof.
  exact (generated_code_of_valid_tree
           (Program [call_example; NumberLiteral (codes "7")]) eq_refl).
Defined.

(** * Properties of the compiler *)

(** X18: [compiler] translates every expression that can be written down.
    Let [n] be a literal or a call whose names are non-empty runs of
    letters, whose numbers are non-empty runs of digits and whose strings
    have no double quote.  On the source text of [n] (its tokens, each
    followed by a space) and with enough fuel, [compiler] returns the
    array of one string: the text of [n] in C style, followed by a
    semicolon when [n] is a call. *)
Theorem compiler_prints_expression (n : node) (fuel : nat) :
  is_expression n = true →
  forallb token_ok (tokens_of n) = true →
  length (print_tokens (tokens_of n)) < fuel →
  compiler fuel (print_tokens (tokens_of n))
  = Ok (Arr [Str (statement_text n)]).
Proof.
  intros Hn Hok Hfuel. unfold compiler, tokenizer, Tokenizer.run.
  pose proof (TokenizerMore.main_loop_print (tokens_of n) [] [] [] fuel Hok
                Hfuel) as Htokens.
  cbn [app length] in Htokens. rewrite Htokens.
  cbn [fmap outcome_fmap fst mbind outcome_bind].
  rewrite (ParserMore.parser_tokens_of n Hn). cbn [mbind outcome_bind].
  assert (valid (Program [n]) = true) as Hvalid.
  { simpl. by rewrite Hn. }
  rewrite (TransformerFacts.transformer_valid _ Hvalid).
  cbn [mbind outcome_bind].
  by rewrite (BackEnd.codeGenerator_transformed _ Hvalid).
Qed.

Lemma compiler_prints_expression_witness :
  compiler 40
    (codes "( add 2 ( subtract 4 " ++ [quote] ++ codes "x" ++ [quote]
     ++ codes " ) ) ")
  = Ok (Arr [Str (codes "add(2,subtract(4," ++ [quote] ++ codes "x"
                  ++ [quote] ++ codes "));")]).
Proof.
  apply (compiler_prints_expression call_example 40);
    [reflexivity|reflexivity|simpl; lia].
Defined.

(** X19: [compiler] does not translate two expressions in a row: on the
    source text of a call followed by further well-formed tokens it throws
    [TypeError("paren")], as [parser] does on these tokens. *)
Theorem compiler_throws_after_first_call (name : jsstring)
    (params : list node) (more : list token) (fuel : nat) :
  forallb is_expression params = true → more ≠ [] →
  forallb token_ok (tokens_of (CallExpression name params) ++ more) = true →
  length (print_tokens (tokens_of (CallExpression name params) ++ more))
  < fuel →
  compiler fuel
    (print_tokens (tokens_of (CallExpression name params) ++ more))
  = Throw (TypeError "paren").
Proof.
  intros Hparams Hmore Hok Hfuel. unfold compiler, tokenizer, Tokenizer.run.
  pose proof (TokenizerMore.main_loop_print _ [] [] [] fuel Hok Hfuel)
    as Htokens.
  cbn [app length] in Htokens. rewrite Htokens.
  cbn [fmap outcome_fmap fst mbind outcome_bind].
  by rewrite (ParserMore.parser_after_call name params more Hparams Hmore).
Qed.

Lemma compiler_throws_after_first_call_witness :
  compiler 40 (codes "( add 2 3 ) ( subtract 4 3 ) ")
  = Throw (TypeError "paren").
Proof.
  apply (compiler_throws_after_first_call (codes "add")
           [NumberLiteral (codes "2"); NumberLiteral (codes "3")]
           (tokens_of (CallExpression (codes "subtract")
                         [NumberLiteral (codes "4");
                          NumberLiteral (codes "3")])) 40);
    [reflexivity|discriminate|reflexivity|simpl; lia].
Defined.
